(** * The consul service watcher of go-upstream (registry/consul/service.go)

    A shallow embedding of the watcher that keeps a client's view of a
    service's healthy endpoints up to date: the two comparison functions
    ([checkClusterChanged], [checkCheckersEqual]), the construction of
    clusters from the catalog ([serviceConfig], [servicesConfig]), one
    iteration of the per-datacenter loop ([watchService]) and one iteration
    of the aggregating loop ([watchServices]).

    Conventions of the embedding.
    - A Go slice that [reflect.DeepEqual] inspects is a [slice]: DeepEqual
      tells a nil slice from an empty one, so the embedding does too.
      Slices that are only ranged over or measured are plain lists.
    - A function that sorts its argument in place returns the sorted value;
      a caller that keeps the pointer keeps the returned value.
    - Calls to the outside world (registry, channel, clock) and to
      [AddEnvTag] of the registry package are recorded in a trace of
      [event]s, in program order. *)

From Stdlib Require Import String Ascii ZArith List Sorted Permutation.
From Stdlib Require OrderedTypeEx.
From stdpp Require Import base decidable option list sorting gmap strings.

Local Open Scope string_scope.
Local Open Scope list_scope.

(** ** Go slices *)

Inductive slice (A : Type) : Type :=
| Nil
| Slice (l : list A).
Arguments Nil {A}.
Arguments Slice {A} l.

#[global] Instance slice_eq_dec {A} `{EqDecision A} : EqDecision (slice A).
Proof. solve_decision. Defined.

(** The elements of a slice; [len] in Go is the length of this list. *)
Definition elems {A} (s : slice A) : list A :=
  match s with
  | Nil => []
  | Slice l => l
  end.

(** [append(s, xs...)]: appending nothing to nil leaves nil. *)
Definition append {A} (s : slice A) (xs : list A) : slice A :=
  match s, xs with
  | Nil, [] => Nil
  | _, _ => Slice (elems s ++ xs)
  end.

(** An in-place permutation of the elements, such as a sort; nil has no
    elements to move. *)
Definition slice_update {A} (f : list A -> list A) (s : slice A) : slice A :=
  match s with
  | Nil => Nil
  | Slice l => Slice (f l)
  end.

(** ** Data model *)

(** Modelled from the spec: the registry package (types [Endpoint] and
    [Cluster]) is not among the sources; the fields are those of the
    spec's data model, which are also the ones the struct literals of
    service.go set. *)
Module Endpoint.
Record t : Type := mk {
  ID : string;
  Addr : string;
  Port : Z;
  Tags : slice string
}.
End Endpoint.

Module Cluster.
Record t : Type := mk {
  Name : string;
  Endpoints : slice Endpoint.t
}.
End Cluster.

(** [api.HealthCheck], the fields service.go reads. *)
Module HealthCheck.
Record t : Type := mk {
  Node : string;
  CheckID : string;
  Name : string;
  Status : string;
  ServiceID : string;
  ServiceName : string;
  ServiceTags : slice string
}.
End HealthCheck.

(** [api.CatalogService], the fields service.go reads. *)
Module CatalogService.
Record t : Type := mk {
  ServiceID : string;
  ServiceTags : list string;
  Datacenter : string;
  ServiceAddress : string;
  Address : string;
  ServicePort : Z
}.
End CatalogService.

(** [api.ServiceEntry]: only its checks are read. *)
Module ServiceEntry.
Record t : Type := mk { Checks : list HealthCheck.t }.
End ServiceEntry.

#[global] Instance Endpoint_eq_dec : EqDecision Endpoint.t.
Proof. solve_decision. Defined.
#[global] Instance Cluster_eq_dec : EqDecision Cluster.t.
Proof. solve_decision. Defined.
#[global] Instance HealthCheck_eq_dec : EqDecision HealthCheck.t.
Proof. solve_decision. Defined.

(** [reflect.DeepEqual] on values of these types is structural equality. *)
Definition DeepEqual {A} `{EqDecision A} (x y : A) : bool := bool_decide (x = y).

(** ** Sorting *)

(** [insertionSort] of Go's package sort: element [i] moves left while it
    is less than its predecessor.  The prefix already sorted is kept
    reversed, its head being the predecessor.  On a slice of at most 6
    elements [sort.Sort] and [sort.Strings] run exactly this, in every
    release of Go. *)
Section InsertionSort.
Context {A : Type} (less : A -> A -> bool).

Fixpoint move_left (x : A) (rprefix : list A) : list A :=
  match rprefix with
  | [] => [x]
  | y :: r => if less x y then y :: move_left x r else x :: y :: r
  end.

Definition insertionSort (l : list A) : list A :=
  reverse (fold_left (fun rprefix x => move_left x rprefix) l []).
End InsertionSort.

(** [a] may stand before [b] in a slice sorted with [less]: [b] is not
    less than [a]. *)
Definition not_after {A} (less : A -> A -> bool) (a b : A) : Prop :=
  less b a = false.

(** [endpointSlice.Less]: the order of the IDs, Go's [<] on strings. *)
Definition endpoint_less (a b : Endpoint.t) : bool :=
  String.ltb (Endpoint.ID a) (Endpoint.ID b).

(** Non-decreasing order of ID. *)
Definition ID_le (a b : Endpoint.t) : Prop :=
  String.leb (Endpoint.ID a) (Endpoint.ID b) = true.

(** Non-decreasing lexicographic order, byte by byte. *)
Definition string_le (a b : string) : Prop := String.leb a b = true.

(** The endpoints of a slice in another order; nil stays nil. *)
Definition slice_perm {A} (s1 s2 : slice A) : Prop :=
  match s1, s2 with
  | Nil, Nil => True
  | Slice l1, Slice l2 => l1 ≡ₚ l2
  | _, _ => False
  end.

(** The IDs of the endpoints of a cluster. *)
Definition cluster_IDs (c : Cluster.t) : list string :=
  map Endpoint.ID (elems (Cluster.Endpoints c)).

(** The endpoints of a cluster are in non-decreasing order of ID. *)
Definition endpoints_sorted (c : Cluster.t) : Prop :=
  Sorted ID_le (elems (Cluster.Endpoints c)).

(** [sort.Strings]. Equal strings are indistinguishable, so every correct
    sort returns this list. *)
Definition sortStrings (l : list string) : list string :=
  insertionSort String.ltb l.

(** ** The outside world *)

(** What one call of [client.Catalog().Service(name, "", q)] returns. *)
Inductive CatalogResult : Type :=
| CatalogErr
| CatalogOk (svcs : list CatalogService.t).

(** What one call of [client.Health().Service(service, "", false, q)]
    returns: an error, or the entries and [meta.LastIndex] (a uint64). *)
Inductive HealthResult : Type :=
| HealthErr
| HealthOk (services : list ServiceEntry.t) (LastIndex : N).

(** What [reflect.Select] returns: the index of the case, and the value
    received ([ok]) or the fact that the channel was closed ([!ok]). *)
Inductive SelectResult : Type :=
| SelectClosed (chosen : nat)
| SelectRecv (chosen : nat) (value : list Cluster.t).

(** The calls a loop makes, in program order: the health query, the sleep
    after a failed one, a catalog query, [AddEnvTag] on the cluster of a
    name, and a send on the output channel. *)
Inductive event : Type :=
| EvFetch (service dc : string) (WaitIndex : N)
| EvSleep
| EvCatalog (name dc : string)
| EvAddEnvTag (name : string)
| EvSend (config : list Cluster.t).

Definition is_catalog (e : event) : bool :=
  match e with EvCatalog _ _ => true | _ => false end.

Definition is_addEnvTag (e : event) : bool :=
  match e with EvAddEnvTag _ => true | _ => false end.

(** The lists sent on the output channel, in order. *)
Definition sends (tr : list event) : list (list Cluster.t) :=
  flat_map (fun e => match e with EvSend c => [c] | _ => [] end) tr.

(** ** checkCheckersEqual *)

(** The condition of the inner loop: [j] of [h2] matches [h] of [h1]. *)
Definition check_match (j h : HealthCheck.t) : bool :=
  String.eqb (HealthCheck.Node j) (HealthCheck.Node h) &&
  String.eqb (HealthCheck.CheckID j) (HealthCheck.CheckID h) &&
  String.eqb (HealthCheck.Name j) (HealthCheck.Name h) &&
  String.eqb (HealthCheck.Status j) (HealthCheck.Status h) &&
  String.eqb (HealthCheck.ServiceID j) (HealthCheck.ServiceID h) &&
  String.eqb (HealthCheck.ServiceName j) (HealthCheck.ServiceName h) &&
  DeepEqual (HealthCheck.ServiceTags j) (HealthCheck.ServiceTags h).

(** [checkIn]: every element of [h1] has a match in [h2]. *)
Fixpoint checkIn (h1 h2 : list HealthCheck.t) : bool :=
  match h1 with
  | [] => true
  | h :: rest => if existsb (fun j => check_match j h) h2 then checkIn rest h2 else false
  end.

Definition checkCheckersEqual (old new : list HealthCheck.t) : bool :=
  checkIn old new && checkIn new old.

(** Two records match, in the words of the specification: the six string
    fields are equal and so are the tags, element by element and in order
    (as [reflect.DeepEqual] compares slices, nil being no empty slice). *)
Definition same_check (j h : HealthCheck.t) : Prop :=
  HealthCheck.Node j = HealthCheck.Node h /\
  HealthCheck.CheckID j = HealthCheck.CheckID h /\
  HealthCheck.Name j = HealthCheck.Name h /\
  HealthCheck.Status j = HealthCheck.Status h /\
  HealthCheck.ServiceID j = HealthCheck.ServiceID h /\
  HealthCheck.ServiceName j = HealthCheck.ServiceName h /\
  HealthCheck.ServiceTags j = HealthCheck.ServiceTags h.

(** Every record of [h1] has a match in [h2]. *)
Definition contained (h1 h2 : list HealthCheck.t) : Prop :=
  forall h, h ∈ h1 -> exists j, j ∈ h2 /\ same_check j h.

(** ** serviceConfig: the endpoint of one catalog instance *)

(** The body of the loop of [serviceConfig] for an instance that passed. *)
Definition endpoint_of (svc : CatalogService.t) : Endpoint.t :=
  let svctags := append Nil (CatalogService.ServiceTags svc) in
  let svctags := append svctags ["dc=" +:+ CatalogService.Datacenter svc] in
  let svctags := slice_update sortStrings svctags in
  let addr := CatalogService.ServiceAddress svc in
  let addr := if String.eqb addr "" then CatalogService.Address svc else addr in
  {| Endpoint.ID := CatalogService.ServiceID svc;
     Endpoint.Addr := addr;
     Endpoint.Port := CatalogService.ServicePort svc;
     Endpoint.Tags := svctags |}.

(** The loop of [serviceConfig]: instances outside [passing] are skipped. *)
Fixpoint add_endpoints (passing : gset string) (svcs : list CatalogService.t)
    (eps : slice Endpoint.t) : slice Endpoint.t :=
  match svcs with
  | [] => eps
  | svc :: rest =>
      if decide (CatalogService.ServiceID svc ∈ passing)
      then add_endpoints passing rest (append eps [endpoint_of svc])
      else add_endpoints passing rest eps
  end.

(** The map [m] of [servicesConfig]: service name to the set of passing
    service IDs ([map[string]map[string]bool], every stored value true). *)
Fixpoint group_checks (checks : list HealthCheck.t) (m : gmap string (gset string))
    : gmap string (gset string) :=
  match checks with
  | [] => m
  | check :: rest =>
      let name := HealthCheck.ServiceName check in
      let id := HealthCheck.ServiceID check in
      let m := match m !! name with Some _ => m | None => <[name := ∅]> m end in
      group_checks rest (<[name := {[id]} ∪ (m !!! name)]> m)
  end.

(** [order] is a possible order of [for name, passing := range m]: every
    key exactly once; Go leaves the order open. *)
Definition range_order (m : gmap string (gset string)) (order : list string) : Prop :=
  order ≡ₚ elements (dom m).

(** ** The watcher, over the parts of its environment that are not in
    service.go *)

(** The outcome of [checkClusterChanged]: its result, and its two arguments
    as the in-place sorts have left them. *)
Record CheckResult : Type := mkCheck {
  changed : bool;
  new_after : list Cluster.t;
  last_after : list Cluster.t
}.

(** The state of one [watchService] loop. *)
Record WatchState : Type := mkWatch {
  lastIndex : N;
  oldCheckers : list HealthCheck.t;
  lastConfig : list Cluster.t
}.

(** What the outside answers during one iteration of [watchService]: the
    health query, the catalog queries, and the order in which the runtime
    ranges over the map of [servicesConfig]. *)
Record Cycle : Type := mkCycle {
  health : HealthResult;
  catalog : string -> CatalogResult;
  order : list string
}.

(** The state of the [watchServices] loop: which cases still have a
    channel, the slot of each datacenter, and the last merged result. *)
Record AggState : Type := mkAgg {
  cases : list bool;
  lastConfigs : list (list Cluster.t);
  lastResult : list Cluster.t
}.

(** The guard of the merge loop of [watchServices]. *)
Definition contributes (slot : list Cluster.t) : bool :=
  match slot with
  | [] => false
  | c :: _ => negb (length (elems (Cluster.Endpoints c)) =? 0)%nat
  end.

(** The endpoints of [slot[0]], for a slot that has one. *)
Definition slot_endpoints (slot : list Cluster.t) : list Endpoint.t :=
  match slot with
  | [] => []
  | c :: _ => elems (Cluster.Endpoints c)
  end.

(** The merge loop of [watchServices], [eps] being [result[0].Endpoints]. *)
Fixpoint merge_endpoints (slots : list (list Cluster.t)) (eps : slice Endpoint.t)
    : slice Endpoint.t :=
  match slots with
  | [] => eps
  | slot :: rest =>
      if contributes slot
      then merge_endpoints rest (append eps (slot_endpoints slot))
      else merge_endpoints rest eps
  end.

Definition merged (service : string) (slots : list (list Cluster.t)) : list Cluster.t :=
  [ {| Cluster.Name := service; Cluster.Endpoints := merge_endpoints slots Nil |} ].


Section Watcher.
(** [sort.Sort(endpointSlice(l))] of Go's standard library. *)
Variable sortEndpoints : list Endpoint.t -> list Endpoint.t.
(** The method [AddEnvTag] of [registry.Cluster], of the registry package. *)
Variable AddEnvTag : Cluster.t -> Cluster.t.
(** [passingServices], of a file of package consul that is not among the
    sources. *)
Variable passingServices : list HealthCheck.t -> list string -> list HealthCheck.t.

(** *** checkClusterChanged *)

Definition sortCluster (c : Cluster.t) : Cluster.t :=
  {| Cluster.Name := Cluster.Name c;
     Cluster.Endpoints := slice_update sortEndpoints (Cluster.Endpoints c) |}.

(** The endpoints of [c] as [sort.Sort] leaves them. *)
Definition sortedEndpoints (c : Cluster.t) : slice Endpoint.t :=
  slice_update sortEndpoints (Cluster.Endpoints c).

(** What an in-place sort may have done to a cluster. *)
Definition touched (c c' : Cluster.t) : Prop :=
  c' = c \/ c' = sortCluster c.

(** The closure [checkCluster]: both clusters are sorted in place, then
    compared. *)
Definition checkCluster (c1 c2 : Cluster.t) : bool * Cluster.t * Cluster.t :=
  let c1' := sortCluster c1 in
  let c2' := sortCluster c2 in
  (negb (DeepEqual (Cluster.Endpoints c1') (Cluster.Endpoints c2')), c1', c2').

(** The loop over the positions, for lists of one length; it returns at
    the first pair that differs and leaves the later pairs as they are. *)
Fixpoint checkPairs (new last : list Cluster.t) : CheckResult :=
  match new, last with
  | c1 :: new', c2 :: last' =>
      let '(differ, c1', c2') := checkCluster c1 c2 in
      if differ then mkCheck true (c1' :: new') (c2' :: last')
      else
        let r := checkPairs new' last' in
        mkCheck (changed r) (c1' :: new_after r) (c2' :: last_after r)
  | _, _ => mkCheck false new last
  end.

(** The clusters of [new] and of [last] are different objects at both
    call sites, so sorting one never moves the endpoints of another. *)
Definition checkClusterChanged (new last : list Cluster.t) : CheckResult :=
  if negb (length new =? length last)%nat then mkCheck true new last
  else checkPairs new last.

(** *** serviceConfig and servicesConfig *)

Definition serviceConfig (catalog : string -> CatalogResult) (name : string)
    (passing : gset string) (dc : string) : Cluster.t * list event :=
  let cluster := {| Cluster.Name := name; Cluster.Endpoints := Slice [] |} in
  if String.eqb name "" || (size passing =? 0)%nat then (cluster, [])
  else
    match catalog name with
    | CatalogErr => (cluster, [EvCatalog name dc])
    | CatalogOk svcs =>
        let cluster :=
          {| Cluster.Name := name;
             Cluster.Endpoints := add_endpoints passing svcs (Cluster.Endpoints cluster) |} in
        (AddEnvTag cluster, [EvCatalog name dc; EvAddEnvTag name])
    end.

(** The loop [for name, passing := range m], in the order [order]. *)
Fixpoint range_clusters (catalog : string -> CatalogResult)
    (m : gmap string (gset string)) (dc : string) (order : list string)
    : list Cluster.t * list event :=
  match order with
  | [] => ([], [])
  | name :: rest =>
      let '(cluster, tr) := serviceConfig catalog name (m !!! name) dc in
      let '(clusters, tr') := range_clusters catalog m dc rest in
      (cluster :: clusters, tr ++ tr')
  end.

Definition servicesConfig (catalog : string -> CatalogResult)
    (checks : list HealthCheck.t) (dc : string) (order : list string)
    : list Cluster.t * list event :=
  range_clusters catalog (group_checks checks ∅) dc order.

(** *** watchService: one iteration of the loop *)

Definition watchService_iter (service : string) (status : list string) (dc : string)
    (st : WatchState) (cy : Cycle) : WatchState * list event :=
  let fetch := EvFetch service dc (lastIndex st) in
  match health cy with
  | HealthErr => (st, [fetch; EvSleep])
  | HealthOk services LastIndex =>
      let checks := flat_map ServiceEntry.Checks services in
      let passCheckers := passingServices checks status in
      if checkCheckersEqual (oldCheckers st) passCheckers
      then (mkWatch LastIndex (oldCheckers st) (lastConfig st), [fetch])
      else
        let '(newConfig, tr) := servicesConfig (catalog cy) passCheckers dc (order cy) in
        let r := checkClusterChanged newConfig (lastConfig st) in
        (mkWatch LastIndex passCheckers (new_after r),
         fetch :: tr ++ (if changed r then [EvSend (new_after r)] else []))
  end.

(** The variables of [watchService] before the loop. *)
Definition watch_init : WatchState := mkWatch 0%N [] [].

(** The first iterations of the loop, one per element of [cycles]. *)
Fixpoint watchService_run (service : string) (status : list string) (dc : string)
    (st : WatchState) (cycles : list Cycle) : WatchState * list event :=
  match cycles with
  | [] => (st, [])
  | cy :: rest =>
      let '(st', tr) := watchService_iter service status dc st cy in
      let '(st'', tr') := watchService_run service status dc st' rest in
      (st'', tr ++ tr')
  end.

(** *** watchServices: one iteration of the loop *)

(** [None] is the run-time panic of an index out of range, which
    [reflect.Select] never provokes: it returns the index of a case.  The
    merge reads the slots as they are when it runs, and builds its result
    in storage of its own. *)
Definition watchServices_iter (service : string) (st : AggState) (sel : SelectResult)
    : option (AggState * list event) :=
  match sel with
  | SelectClosed chosen =>
      if (chosen <? length (cases st))%nat
      then Some (mkAgg (<[chosen := false]> (cases st)) (lastConfigs st) (lastResult st), [])
      else None
  | SelectRecv chosen value =>
      if (chosen <? length (lastConfigs st))%nat
      then
        let slots := <[chosen := value]> (lastConfigs st) in
        let result := merged service slots in
        let r := checkClusterChanged result (lastResult st) in
        Some (mkAgg (cases st) slots (new_after r),
              if changed r then [EvSend (new_after r)] else [])
      else None
  end.

(** The variables of [watchServices] before the loop, for [n]
    datacenters. *)
Definition agg_init (n : nat) : AggState :=
  mkAgg (replicate n true) (replicate n []) [].

Fixpoint watchServices_run (service : string) (st : AggState) (sels : list SelectResult)
    : option (AggState * list event) :=
  match sels with
  | [] => Some (st, [])
  | sel :: rest =>
      match watchServices_iter service st sel with
      | None => None
      | Some (st', tr) =>
          match watchServices_run service st' rest with
          | None => None
          | Some (st'', tr') => Some (st'', tr ++ tr')
          end
      end
  end.

(** The cursor after each successful fetch of a run, in order. *)
Fixpoint cursors (service : string) (status : list string) (dc : string)
    (st : WatchState) (cycles : list Cycle) : list N :=
  match cycles with
  | [] => []
  | cy :: rest =>
      let st' := (watchService_iter service status dc st cy).1 in
      match health cy with
      | HealthOk _ _ => lastIndex st' :: cursors service status dc st' rest
      | HealthErr => cursors service status dc st' rest
      end
  end.
End Watcher.

(** The indices the registry returned to the successful fetches of a run. *)
Fixpoint returned_indices (cycles : list Cycle) : list N :=
  match cycles with
  | [] => []
  | cy :: rest =>
      match health cy with
      | HealthOk _ LastIndex => LastIndex :: returned_indices rest
      | HealthErr => returned_indices rest
      end
  end.

(** The case [reflect.Select] chose. *)
Definition chosen_of (sel : SelectResult) : nat :=
  match sel with
  | SelectClosed chosen | SelectRecv chosen _ => chosen
  end.

(** Every successful fetch of the run finds no passing check. *)
Definition no_passing (passingServices : list HealthCheck.t -> list string -> list HealthCheck.t)
    (status : list string) (cycles : list Cycle) : Prop :=
  Forall (fun cy =>
            match health cy with
            | HealthOk services _ =>
                passingServices (flat_map ServiceEntry.Checks services) status = []
            | HealthErr => True
            end) cycles.

(** ** Models of the parts that are not among the sources *)

(** Modelled from the spec: [AddEnvTag] of the registry package is not
    among the sources.  The spec has it append a fixed environment tag,
    and shows the tag after [dc=...] in the tags of an endpoint. *)
Definition AddEnvTag_spec (env : string) (c : Cluster.t) : Cluster.t :=
  {| Cluster.Name := Cluster.Name c;
     Cluster.Endpoints :=
       slice_update
         (map (fun e =>
            {| Endpoint.ID := Endpoint.ID e;
               Endpoint.Addr := Endpoint.Addr e;
               Endpoint.Port := Endpoint.Port e;
               Endpoint.Tags := append (Endpoint.Tags e) [env] |}))
         (Cluster.Endpoints c) |}.

(** Modelled from the spec: [passingServices] is not among the sources.
    The spec has it keep the checks whose status is in the accepted set. *)
Definition passingServices_spec (checks : list HealthCheck.t) (status : list string)
    : list HealthCheck.t :=
  filter (fun c => HealthCheck.Status c ∈ status) checks.

(** ** Example data *)

Definition ex_sort : list Endpoint.t -> list Endpoint.t :=
  insertionSort endpoint_less.

Definition ex_env : Cluster.t -> Cluster.t := AddEnvTag_spec "env=prod".

Definition ex_check (name id status : string) : HealthCheck.t :=
  HealthCheck.mk "node1" ("service:" +:+ id) "alive" status id name Nil.

Definition ex_instance (id addr : string) : CatalogService.t :=
  CatalogService.mk id [] "us" "" addr 8080.

Definition ex_endpoint (id addr : string) : Endpoint.t :=
  Endpoint.mk id addr 8080 (Slice ["dc=us"; "env=prod"]).

Definition ex_cluster (eps : list Endpoint.t) : Cluster.t :=
  Cluster.mk "web" (Slice eps).

Definition ex_a : Endpoint.t := ex_endpoint "a" "10.0.0.1".
Definition ex_b : Endpoint.t := ex_endpoint "b" "10.0.0.2".
Definition ex_c : Endpoint.t := ex_endpoint "c" "10.0.0.3".

(** Two instances registered under one service ID on two nodes. *)
Definition ex_dup1 : Endpoint.t := ex_endpoint "web" "10.0.0.1".
Definition ex_dup2 : Endpoint.t := ex_endpoint "web" "10.0.0.2".

(** A fetch that finds instances [b] and [a] passing and [c] critical,
    and a catalog that lists [b], [a], [c] in this order. *)
Definition ex_cycle : Cycle :=
  mkCycle
    (HealthOk [ServiceEntry.mk [ex_check "web" "b" "passing"];
               ServiceEntry.mk [ex_check "web" "a" "passing";
                                ex_check "web" "c" "critical"]] 7)
    (fun _ => CatalogOk [ex_instance "b" "10.0.0.2"; ex_instance "a" "10.0.0.1";
                         ex_instance "c" "10.0.0.3"])
    ["web"].

(** A fetch that returns the same two passing checks in the other order. *)
Definition ex_services_again : list ServiceEntry.t :=
  [ServiceEntry.mk [ex_check "web" "a" "passing"; ex_check "web" "c" "critical"];
   ServiceEntry.mk [ex_check "web" "b" "passing"]].

Definition ex_cycle_again : Cycle :=
  mkCycle (HealthOk ex_services_again 9) (fun _ => CatalogErr) ["web"].

(** Fetches that find nothing, at indices 5 and then 3, a failure between. *)
Definition ex_cycles_backwards : list Cycle :=
  [mkCycle (HealthOk [] 5) (fun _ => CatalogErr) [];
   mkCycle HealthErr (fun _ => CatalogErr) [];
   mkCycle (HealthOk [] 3) (fun _ => CatalogErr) []].

(** An aggregator over three datacenters that has heard from the first
    two. *)
Definition ex_agg : AggState :=
  mkAgg [true; true; true]
        [[ex_cluster [ex_a; ex_b]]; [ex_cluster []]; []]
        [ex_cluster [ex_a; ex_b]].

(** The scenario of the specification: service [orders] in datacenters
    [us] and [eu]; [us] has the passing instance [i1], and later [eu] gets
    the passing instance [i2]. *)
Definition ex_orders_cycle (dc id addr : string) (idx : N) : Cycle :=
  mkCycle
    (HealthOk [ServiceEntry.mk [ex_check "orders" id "passing"]] idx)
    (fun _ => CatalogOk [CatalogService.mk id [] dc "" addr 8080])
    ["orders"].

Definition ex_orders_endpoint (dc id addr : string) : Endpoint.t :=
  Endpoint.mk id addr 8080 (Slice ["dc=" +:+ dc; "env=prod"]).

(** What the watcher of a datacenter sends in a run from its initial
    state. *)
Definition ex_orders_sent (dc : string) (cycles : list Cycle) : list (list Cluster.t) :=
  sends (watchService_run ex_sort ex_env passingServices_spec "orders" ["passing"] dc
           watch_init cycles).2.

(** * More of the code *)

(** ** endpointSlice as a sort.Interface *)

(** [endpointSlice.Len]. *)
Definition Len (s : list Endpoint.t) : nat := length s.

(** [endpointSlice.Less]; [None] is the panic of an index out of range. *)
Definition Less (s : list Endpoint.t) (i j : nat) : option bool :=
  match s !! i, s !! j with
  | Some a, Some b => Some (String.ltb (Endpoint.ID a) (Endpoint.ID b))
  | _, _ => None
  end.

(** [endpointSlice.Swap]: [s[i], s[j] = s[j], s[i]]. *)
Definition Swap (s : list Endpoint.t) (i j : nat) : option (list Endpoint.t) :=
  match s !! i, s !! j with
  | Some a, Some b => Some (<[j := a]> (<[i := b]> s))
  | _, _ => None
  end.

(** The inner loop of [insertionSort] of package sort, on the methods of
    [endpointSlice], with [a = 0]:
    [for j := i; j > a && data.Less(j, j-1); j-- { data.Swap(j, j-1) }]. *)
Fixpoint insertion_inner (s : list Endpoint.t) (j : nat) : option (list Endpoint.t) :=
  match j with
  | 0 => Some s
  | S j' =>
      match Less s j j' with
      | None => None
      | Some false => Some s
      | Some true =>
          match Swap s j j' with
          | None => None
          | Some s' => insertion_inner s' j'
          end
      end
  end.

(** The outer loop, [for i := a + 1; i < b; i++], with [todo = b - i]
    iterations left. *)
Fixpoint insertion_outer (s : list Endpoint.t) (i todo : nat) : option (list Endpoint.t) :=
  match todo with
  | 0 => Some s
  | S todo' =>
      match insertion_inner s i with
      | None => None
      | Some s' => insertion_outer s' (S i) todo'
      end
  end.

(** [insertionSort(endpointSlice(s), 0, s.Len())]. *)
Definition insertionSort_methods (s : list Endpoint.t) : option (list Endpoint.t) :=
  insertion_outer s 1 (Len s - 1).

(** ** The start of watchServices *)

(** [strings.Split(s, ",")]: the substrings between the commas; a string
    without comma, the empty string included, gives one piece.  A comma is
    one byte that occurs in no other character of UTF-8, so the bytes can
    be scanned one by one. *)
Fixpoint Split_comma (s : string) : list string :=
  match s with
  | EmptyString => [""]
  | String c rest =>
      if Ascii.eqb c "," then "" :: Split_comma rest
      else
        match Split_comma rest with
        | piece :: pieces => String c piece :: pieces
        | [] => [String c ""]
        end
  end.

(** The number of commas of a string. *)
Fixpoint commas (s : string) : nat :=
  match s with
  | EmptyString => 0
  | String c rest => (if Ascii.eqb c "," then 1 else 0) + commas rest
  end.

(** The state of the loop of [watchServices] is as [n] datacenters leave
    it: one case and one slot each, at most one merged cluster. *)
Definition agg_wf (n : nat) (st : AggState) : Prop :=
  length (cases st) = n /\ length (lastConfigs st) = n /\ length (lastResult st) <= 1.

Definition is_recv (sel : SelectResult) : bool :=
  match sel with SelectRecv _ _ => true | SelectClosed _ => false end.

(** The last value received from case [i] among [sels], if any. *)
Fixpoint last_value (i : nat) (sels : list SelectResult) : option (list Cluster.t) :=
  match sels with
  | [] => None
  | sel :: rest =>
      match last_value i rest with
      | Some v => Some v
      | None =>
          match sel with
          | SelectRecv chosen v => if decide (chosen = i) then Some v else None
          | SelectClosed _ => None
          end
      end
  end.

(** No two neighbours of the list are the same under [same]. *)
Fixpoint neighbours_differ {A} (same : A -> A -> Prop) (l : list A) : Prop :=
  match l with
  | a :: rest =>
      match rest with b :: _ => ~ same a b | [] => True end /\ neighbours_differ same rest
  | [] => True
  end.

(** Two lists of clusters that [checkClusterChanged] cannot tell apart on
    equal lengths: position by position the sorted endpoints agree. *)
Definition same_sorted (sortEndpoints : list Endpoint.t -> list Endpoint.t)
    (l1 l2 : list Cluster.t) : Prop :=
  Forall2 (fun c d => sortedEndpoints sortEndpoints c = sortedEndpoints sortEndpoints d)
          l1 l2.

(** The list kept for the next comparison cannot be told apart from the
    list sent last, if there is one. *)
Definition follows (sortEndpoints : list Endpoint.t -> list Endpoint.t)
    (kept : list Cluster.t) (sent : option (list Cluster.t)) : Prop :=
  match sent with
  | None => True
  | Some p => same_sorted sortEndpoints kept p
  end.

Definition fetch_ok (cy : Cycle) : bool :=
  match health cy with HealthOk _ _ => true | HealthErr => false end.

Definition is_sleep (e : event) : bool :=
  match e with EvSleep => true | _ => false end.

Section Setup.
(** [strings.TrimSpace] of Go's standard library. *)
Variable TrimSpace : string -> string.
Variable passingServices : list HealthCheck.t -> list string -> list HealthCheck.t.

(** [datacenters] of [watchServices]. *)
Definition datacenters (dc : string) : list string :=
  Split_comma (TrimSpace dc).

(** The variables of [watchServices] before its loop: one channel, one
    case and one slot for each datacenter. *)
Definition watchServices_init (dc : string) : AggState :=
  agg_init (length (datacenters dc)).

(** The runtime ranges over the map of [servicesConfig] in an order of
    its keys, in every iteration that gets that far. *)
Definition range_orders (status : list string) (cycles : list Cycle) : Prop :=
  Forall (fun cy =>
            match health cy with
            | HealthOk services _ =>
                range_order
                  (group_checks
                     (passingServices (flat_map ServiceEntry.Checks services) status) ∅)
                  (order cy)
            | HealthErr => True
            end) cycles.
End Setup.

(** ** The HTTP request builder (package client) *)

Module Client.

(** An [error] is its message; a [*tls.Config] is only stored and handed
    to the transport, so it is a handle here. *)
Inductive tlsConfig : Type := TLS (id : nat).

(** [(value, nil)] or [(_, err)]. *)
Inductive outcome (A : Type) : Type :=
| Ok (a : A)
| Err (e : string).
Arguments Ok {A} a.
Arguments Err {A} e.

(** [http.Response], the fields the builder reads. *)
Record Resp : Type := mkResp {
  StatusCode : Z;
  Status : string
}.

(** [http.Header]: [None] is the nil map. *)
Definition Header : Type := option (gmap string (list string)).

(** The struct [client]; [ctx] only reaches the logger.  [body] is the
    content of the reader, [None] the nil interface. *)
Record t : Type := mk {
  url : string;
  header : Header;
  body : option string;
  method : string;
  timeout : Z;
  err : option string;
  respBody : option Resp;
  tlsClientConfig : option tlsConfig
}.

Definition defaultTimeout : Z := 5.

Definition NewReq : t :=
  mk "" None None "" defaultTimeout None None None.

Definition Get (c : t) (u : string) : t :=
  mk u (header c) (body c) "GET" (timeout c) (err c) (respBody c) (tlsClientConfig c).

Definition Post (c : t) (u : string) : t :=
  mk u (header c) (body c) "POST" (timeout c) (err c) (respBody c) (tlsClientConfig c).

Definition WithTimeout (c : t) (timeout : Z) : t :=
  mk (url c) (header c) (body c) (method c) timeout (err c) (respBody c)
     (tlsClientConfig c).

Definition TLSClientConfig (c : t) (conf : option tlsConfig) : t :=
  mk (url c) (header c) (body c) (method c) (timeout c) (err c) (respBody c) conf.

Definition set_header (c : t) (h : Header) : t :=
  mk (url c) h (body c) (method c) (timeout c) (err c) (respBody c) (tlsClientConfig c).

Definition set_body (c : t) (b : option string) : t :=
  mk (url c) (header c) b (method c) (timeout c) (err c) (respBody c)
     (tlsClientConfig c).

Definition set_err (c : t) (e : string) : t :=
  mk (url c) (header c) (body c) (method c) (timeout c) (Some e) (respBody c)
     (tlsClientConfig c).

Definition set_respBody (c : t) (r : Resp) : t :=
  mk (url c) (header c) (body c) (method c) (timeout c) (err c) (Some r)
     (tlsClientConfig c).

(** The values of a header with a canonical key; none for a missing key
    and for the nil map. *)
Definition values (h : Header) (key : string) : list string :=
  match h with
  | None => []
  | Some m => default [] (m !! key)
  end.

Section Headers.
(** The dynamic type of a header value, and [fmt.Sprint] on it. *)
Variable V : Type.
Variable Sprint : V -> string.
(** [http.CanonicalHeaderKey]. *)
Variable CanonicalHeaderKey : string -> string.

(** [c.header.Add(k, v)]: [h[key] = append(h[key], v)] with the canonical
    key; [None] is the panic of an assignment to an entry of a nil map. *)
Definition Add (c : t) (k v : string) : option t :=
  match header c with
  | None => None
  | Some m =>
      let key := CanonicalHeaderKey k in
      Some (set_header c (Some (<[key := default [] (m !! key) ++ [v]]> m)))
  end.

Definition WithHeader (c : t) (k : string) (v : V) : option t :=
  let c := match header c with
           | None => set_header c (Some ∅)
           | Some _ => c
           end in
  Add c k (Sprint v).

(** [WithHeaderMap], its argument given as the entries of the map in the
    order in which the runtime ranges over them. *)
Fixpoint WithHeaderMap (c : t) (entries : list (string * V)) : option t :=
  match entries with
  | [] => Some c
  | (k, v) :: rest =>
      match Add c k (Sprint v) with
      | None => None
      | Some c' => WithHeaderMap c' rest
      end
  end.

(** The loop of [WithHeaders], [for i := 0; i < l; i += 2], with [rounds]
    bounding the iterations left; an index out of range would panic. *)
Fixpoint WithHeaders_loop (c : t) (keyAndValues : list V) (l : Z) (i : nat)
    (rounds : nat) : option t :=
  match rounds with
  | 0 => Some c
  | S rounds' =>
      if (Z.of_nat i <? l)%Z
      then
        match keyAndValues !! i, keyAndValues !! (i + 1) with
        | Some k, Some v =>
            match Add c (Sprint k) (Sprint v) with
            | None => None
            | Some c' => WithHeaders_loop c' keyAndValues l (i + 2) rounds'
            end
        | _, _ => None
        end
      else Some c
  end.

Definition WithHeaders (c : t) (keyAndValues : list V) : option t :=
  let l := (Z.of_nat (length keyAndValues) - 1)%Z in
  match WithHeaders_loop c keyAndValues l 0 (length keyAndValues) with
  | None => None
  | Some c =>
      if ((l + 1) mod 2 =? 1)%Z
      then
        match keyAndValues !! Z.to_nat l with
        | Some k => Add c (Sprint k) ""
        | None => None
        end
      else Some c
  end.

(** What [WithHeaders] adds, pair by pair, a last key without value
    getting the empty string. *)
Fixpoint header_pairs (keyAndValues : list V) : list (string * string) :=
  match keyAndValues with
  | k :: v :: rest => (Sprint k, Sprint v) :: header_pairs rest
  | [k] => [(Sprint k, "")]
  | [] => []
  end.

(** The pairs of [keyAndValues] that have both a key and a value. *)
Fixpoint full_pairs (keyAndValues : list V) : list (string * string) :=
  match keyAndValues with
  | k :: v :: rest => (Sprint k, Sprint v) :: full_pairs rest
  | _ => []
  end.

(** [Add] for each pair in turn. *)
Fixpoint add_all (c : t) (pairs : list (string * string)) : option t :=
  match pairs with
  | [] => Some c
  | (k, v) :: rest =>
      match Add c k v with
      | None => None
      | Some c' => add_all c' rest
      end
  end.
End Headers.

(** The argument of [WithBody] by the case of the type switch it takes,
    with what [ioutil.ReadAll] or [jsoniter.Marshal] returns for it. *)
Inductive BodyArg : Type :=
| ArgReader (read : outcome string)
| ArgBytes (v : string)
| ArgString (v : string)
| ArgOther (marshal : outcome string).

Definition WithBody (c : t) (arg : BodyArg) : t :=
  match arg with
  | ArgReader (Err e) | ArgOther (Err e) => set_err c e
  | ArgReader (Ok buf) | ArgOther (Ok buf) => set_body c (Some buf)
  | ArgBytes v | ArgString v => set_body c (Some v)
  end.

(** [int64] arithmetic wraps around. *)
Definition wrap64 (x : Z) : Z := ((x + 2 ^ 63) mod 2 ^ 64 - 2 ^ 63)%Z.

(** [time.Duration(c.timeout) * time.Second], in nanoseconds. *)
Definition timeout_duration (c : t) : Z := wrap64 (timeout c * 1000000000)%Z.

(** What the network does with one request: [http.NewRequest] fails, or
    [client.Do] fails or returns a response; [rest] is what [Do] leaves
    unread in the body reader. *)
Inductive Transport : Type :=
| NewRequestErr (e : string)
| DoErr (e : string) (rest : string)
| DoOk (resp : Resp) (rest : string).

(** The calls to the outside. *)
Inductive event : Type :=
| EvDo (method url : string) (header : Header) (body : option string)
       (timeout_ns : Z) (tls : option tlsConfig)
| EvReadAll
| EvClose.

Definition is_do (e : event) : bool :=
  match e with EvDo _ _ _ _ _ _ => true | _ => false end.

Definition Response (c : t) (net : Transport) : t * list event :=
  let c := if String.eqb (method c) "GET" then set_body c None else c in
  let do := EvDo (method c) (url c) (header c) (body c) (timeout_duration c)
                 (tlsClientConfig c) in
  let drained rest := set_body c (match body c with
                                  | None => None
                                  | Some _ => Some rest
                                  end) in
  match net with
  | NewRequestErr e => (set_err c e, [])
  | DoErr e rest => (set_err (drained rest) e, [do])
  | DoOk resp rest => (set_respBody (drained rest) resp, [do])
  end.

(** [ParseDataJson]: the error returned ([None] is nil) and the calls on
    the response body; the whole is [None] when the nil response is
    dereferenced.  [data_nil] says that [data == nil]; [read] is what
    [ioutil.ReadAll] returns and [unmarshal] what [jsoniter.Unmarshal]
    returns for the bytes read. *)
Definition ParseDataJson (c : t) (data_nil : bool) (read : outcome string)
    (unmarshal : string -> option string) : option (option string * list event) :=
  match err c with
  | Some e => Some (Some e, [])
  | None =>
      match respBody c with
      | None => None
      | Some resp =>
          if negb (StatusCode resp =? 200)%Z then Some (Some (Status resp), [EvClose])
          else if data_nil then Some (None, [EvClose])
          else
            match read with
            | Err e => Some (Some e, [EvReadAll; EvClose])
            | Ok body => Some (unmarshal body, [EvReadAll; EvClose])
            end
      end
  end.

Definition ParseJson (c : t) (data_nil : bool) (read : outcome string)
    (unmarshal : string -> option string) : option (option string * list event) :=
  ParseDataJson c data_nil read unmarshal.

Definition ParseEmpty (c : t) (read : outcome string)
    (unmarshal : string -> option string) : option (option string * list event) :=
  ParseDataJson c true read unmarshal.

(** [ParseString]: also the string stored through [str], if any. *)
Definition ParseString (c : t) (read : outcome string)
    : option (option string * option string * list event) :=
  match err c with
  | Some e => Some (Some e, None, [])
  | None =>
      match respBody c with
      | None => None
      | Some resp =>
          if negb (StatusCode resp =? 200)%Z
          then Some (Some (Status resp), None, [EvClose])
          else
            match read with
            | Err e => Some (Some e, None, [EvReadAll; EvClose])
            | Ok body => Some (None, Some body, [EvReadAll; EvClose])
            end
      end
  end.

(** *** Chains of calls *)

(** A call of a method of the builder, with what the outside does during
    it.  Every method returns its receiver, so a chain
    [c.Post(u).WithBody(b).Response()] is a list of calls on one client. *)
Inductive call : Type :=
| CallGet (u : string)
| CallPost (u : string)
| CallWithTimeout (timeout : Z)
| CallWithBody (arg : BodyArg)
| CallTLSClientConfig (conf : option tlsConfig)
| CallResponse (net : Transport).

Definition call_on (c : t) (k : call) : t * list event :=
  match k with
  | CallGet u => (Get c u, [])
  | CallPost u => (Post c u, [])
  | CallWithTimeout timeout => (WithTimeout c timeout, [])
  | CallWithBody arg => (WithBody c arg, [])
  | CallTLSClientConfig conf => (TLSClientConfig c conf, [])
  | CallResponse net => Response c net
  end.

Fixpoint chain (c : t) (ks : list call) : t * list event :=
  match ks with
  | [] => (c, [])
  | k :: rest =>
      let (c1, tr1) := call_on c k in
      let (c2, tr2) := chain c1 rest in
      (c2, tr1 ++ tr2)
  end.

(** The calls during which something fails: the reader or the encoder of
    [WithBody], [http.NewRequest] or [client.Do]. *)
Definition fails (k : call) : bool :=
  match k with
  | CallWithBody (ArgReader (Err _)) | CallWithBody (ArgOther (Err _)) => true
  | CallResponse (NewRequestErr _) | CallResponse (DoErr _ _) => true
  | _ => false
  end.

(** The calls during which a response arrives. *)
Definition gets_response (k : call) : bool :=
  match k with CallResponse (DoOk _ _) => true | _ => false end.

(** The calls during which a request goes out. *)
Definition does_request (k : call) : bool :=
  match k with
  | CallResponse (DoErr _ _) | CallResponse (DoOk _ _) => true
  | _ => false
  end.

End Client.

(** ** More example data *)

Definition ex_selects : list SelectResult :=
  [SelectClosed 1; SelectRecv 2 [ex_cluster [ex_c]]; SelectRecv 0 [ex_cluster [ex_b]]].

Definition ex_two_clusters : list Cluster.t :=
  [ex_cluster [ex_c]; Cluster.mk "api" (Slice [ex_a])].

Definition ex_mixed_checks : list HealthCheck.t :=
  [ex_check "web" "a" "passing"; ex_check "" "n" "passing"; ex_check "web" "b" "passing"].

Definition ex_services : list ServiceEntry.t :=
  [ServiceEntry.mk [ex_check "web" "b" "passing"];
   ServiceEntry.mk [ex_check "web" "a" "passing"; ex_check "web" "c" "critical"]].

Definition ex_state_after : WatchState :=
  (watchService_iter ex_sort ex_env passingServices_spec "web" ["passing"] "us"
     watch_init ex_cycle).1.

(** Two datacenters: the first reports [b; a], the second nothing, the
    first then [a; b], and the second [c]. *)
Definition ex_selects_reorder : list SelectResult :=
  [SelectRecv 0 [ex_cluster [ex_b; ex_a]]; SelectRecv 1 [];
   SelectRecv 0 [ex_cluster [ex_a; ex_b]]; SelectRecv 1 [ex_cluster [ex_c]]].

(** Instance [i1] passes, then again, then [i2] instead. *)
Definition ex_orders_cycles : list Cycle :=
  [ex_orders_cycle "us" "i1" "10.1.0.1" 3; ex_orders_cycle "us" "i1" "10.1.0.1" 4;
   ex_orders_cycle "us" "i2" "10.1.0.2" 5].

(** * Properties *)

(** ** The order of strings *)

Lemma ltb_compare (a b : string) : String.ltb a b = true <-> String.compare a b = Lt.
Proof. unfold String.ltb. destruct (String.compare a b); intuition congruence. Qed.

Lemma leb_ltb (a b : string) : String.leb a b = negb (String.ltb b a).
Proof.
  unfold String.leb, String.ltb. rewrite (String.compare_antisym a b).
  destruct (String.compare b a); reflexivity.
Qed.

Lemma leb_cases (a b : string) :
  String.leb a b = true <-> OrderedTypeEx.String_as_OT.lt a b \/ a = b.
Proof.
  unfold String.leb. split.
  - destruct (String.compare a b) eqn:E; intros H; try discriminate.
    + right. now apply OrderedTypeEx.String_as_OT.cmp_eq.
    + left. now apply OrderedTypeEx.String_as_OT.cmp_lt.
  - intros [H | ->].
    + apply OrderedTypeEx.String_as_OT.cmp_lt in H.
      unfold OrderedTypeEx.String_as_OT.cmp in H. now rewrite H.
    + assert (E : String.compare b b = Eq)
        by now apply OrderedTypeEx.String_as_OT.cmp_eq.
      now rewrite E.
Qed.

#[global] Instance string_le_trans : Transitive string_le.
Proof.
  intros a b c Hab Hbc. unfold string_le in *.
  apply leb_cases in Hab, Hbc. apply leb_cases.
  destruct Hab as [Hab | ->]; destruct Hbc as [Hbc | ->]; auto.
  left. eapply OrderedTypeEx.String_as_OT.lt_trans; eauto.
Qed.

#[global] Instance string_le_antisym : AntiSymm (=) string_le.
Proof. intros a b Hab Hba. now apply String.leb_antisym. Qed.

#[global] Instance ID_le_trans : Transitive ID_le.
Proof. intros a b c. unfold ID_le. apply string_le_trans. Qed.

(** ** Insertion sort sorts and permutes *)

Section InsertionSortFacts.
Context {A : Type} (less : A -> A -> bool).
Hypothesis less_asym : forall a b, less a b = true -> less b a = false.

Local Abbreviation le := (not_after less).

Lemma move_left_perm x r : move_left less x r ≡ₚ x :: r.
Proof.
  induction r as [|y r IH]; simpl; [done|].
  destruct (less x y); [|done].
  rewrite IH. apply perm_swap.
Qed.

Lemma move_left_sorted x r :
  Sorted (flip le) r -> Sorted (flip le) (move_left less x r).
Proof.
  induction 1 as [|y r Hr IH Hhd]; simpl; [repeat constructor|].
  destruct (less x y) eqn:Hxy.
  - constructor; [done|].
    destruct Hhd as [|z r' Hz]; simpl.
    + constructor. unfold flip, le. auto.
    + destruct (less x z); constructor; unfold flip, le in *; auto.
  - constructor; [by constructor|]. constructor. unfold flip, le. done.
Qed.

Lemma insertion_prefix_perm l acc :
  fold_left (fun rprefix x => move_left less x rprefix) l acc ≡ₚ l ++ acc.
Proof.
  revert acc. induction l as [|x l IH]; intros acc; simpl; [done|].
  rewrite IH, move_left_perm. by rewrite Permutation_middle.
Qed.

Lemma insertion_prefix_sorted l acc :
  Sorted (flip le) acc ->
  Sorted (flip le) (fold_left (fun rprefix x => move_left less x rprefix) l acc).
Proof.
  revert acc. induction l as [|x l IH]; intros acc Hacc; simpl; [done|].
  apply IH, move_left_sorted, Hacc.
Qed.

Lemma insertionSort_perm l : insertionSort less l ≡ₚ l.
Proof.
  unfold insertionSort. rewrite reverse_Permutation, insertion_prefix_perm.
  by rewrite app_nil_r.
Qed.

Lemma insertionSort_sorted l : Sorted le (insertionSort less l).
Proof.
  unfold insertionSort.
  apply (Sorted_reverse (flip le)), insertion_prefix_sorted. constructor.
Qed.
End InsertionSortFacts.

Lemma Sorted_weaken {A} (R S : relation A) l :
  (forall a b, R a b -> S a b) -> Sorted R l -> Sorted S l.
Proof.
  intros HRS. induction 1 as [|x l Hl IH Hhd]; constructor; [done|].
  destruct Hhd; constructor; auto.
Qed.

Lemma ltb_asym (a b : string) : String.ltb a b = true -> String.ltb b a = false.
Proof.
  intros H. apply ltb_compare in H. unfold String.ltb.
  rewrite String.compare_antisym, H. reflexivity.
Qed.

Lemma insertionSort_endpoints_perm l : insertionSort endpoint_less l ≡ₚ l.
Proof. apply insertionSort_perm. Qed.

Lemma insertionSort_endpoints_sorted l : Sorted ID_le (insertionSort endpoint_less l).
Proof.
  eapply Sorted_weaken; [|apply (insertionSort_sorted endpoint_less)].
  - intros a b H. unfold ID_le. rewrite leb_ltb. unfold endpoint_less in H.
    simpl in H. by rewrite H.
  - intros a b. unfold endpoint_less. apply ltb_asym.
Qed.

Lemma sortStrings_perm l : sortStrings l ≡ₚ l.
Proof. apply insertionSort_perm. Qed.

Lemma sortStrings_sorted l : Sorted string_le (sortStrings l).
Proof.
  eapply Sorted_weaken; [|apply (insertionSort_sorted String.ltb ltb_asym)].
  intros a b H. unfold string_le. rewrite leb_ltb. simpl in H. by rewrite H.
Qed.

(** ** The cluster diff *)

Section ClusterDiff.
Variable sortEndpoints : list Endpoint.t -> list Endpoint.t.

Lemma checkPairs_unchanged new last :
  length new = length last ->
  changed (checkPairs sortEndpoints new last) = false <->
  Forall2 (fun c1 c2 => sortedEndpoints sortEndpoints c1 = sortedEndpoints sortEndpoints c2) new last.
Proof.
  revert last. induction new as [|c1 new IH]; intros [|c2 last] Hlen;
    simpl in *; try discriminate.
  - split; [constructor|done].
  - injection Hlen as Hlen. unfold DeepEqual. case_bool_decide as E; simpl.
    + rewrite (IH last Hlen). split.
      * intros H. by constructor.
      * intros H. by inv H.
    + split; [done|]. intros H. by inv H.
Qed.

Lemma checkClusterChanged_unchanged new last :
  changed (checkClusterChanged sortEndpoints new last) = false <->
  length new = length last /\
  forall i c1 c2, new !! i = Some c1 -> last !! i = Some c2 ->
                  sortedEndpoints sortEndpoints c1 = sortedEndpoints sortEndpoints c2.
Proof.
  unfold checkClusterChanged.
  destruct (length new =? length last)%nat eqn:E; simpl.
  - apply Nat.eqb_eq in E. rewrite (checkPairs_unchanged _ _ E).
    rewrite Forall2_lookup. split.
    + intros H. split; [done|]. intros i c1 c2 H1 H2.
      specialize (H i). rewrite H1, H2 in H. by inv H.
    + intros [_ H] i. destruct (new !! i) as [c1|] eqn:H1;
        destruct (last !! i) as [c2|] eqn:H2.
      * constructor. eauto.
      * apply lookup_lt_Some in H1. apply lookup_ge_None in H2. lia.
      * apply lookup_lt_Some in H2. apply lookup_ge_None in H1. lia.
      * constructor.
  - apply Nat.eqb_neq in E. split; [done|]. intros [? _]. done.
Qed.

(** The in-place effect of the loop: positions up to the first pair that
    differs are sorted on both sides, the later ones are as they were. *)
Lemma checkPairs_touched new last :
  Forall2 (touched sortEndpoints) new (new_after (checkPairs sortEndpoints new last)) /\
  Forall2 (touched sortEndpoints) last (last_after (checkPairs sortEndpoints new last)).
Proof.
  revert last. induction new as [|c1 new IH]; intros [|c2 last]; simpl.
  - split; constructor.
  - split; [constructor|]. apply Forall2_same_length_lookup_2; [done|].
    intros i x y H1 H2. left. congruence.
  - split; [|constructor]. apply Forall2_same_length_lookup_2; [done|].
    intros i x y H1 H2. left. congruence.
  - destruct (negb _); simpl.
    + split; (constructor; [by right|]);
        (apply Forall2_same_length_lookup_2; [done|]);
        intros i x y H1 H2; left; congruence.
    + destruct (IH last) as [H1 H2].
      split; (constructor; [by right|done]).
Qed.

Lemma checkClusterChanged_touched new last :
  Forall2 (touched sortEndpoints) new (new_after (checkClusterChanged sortEndpoints new last)) /\
  Forall2 (touched sortEndpoints) last (last_after (checkClusterChanged sortEndpoints new last)).
Proof.
  unfold checkClusterChanged. destruct (negb _); simpl.
  - split; (apply Forall2_same_length_lookup_2; [done|]);
      intros i x y H1 H2; left; congruence.
  - apply checkPairs_touched.
Qed.

(** When no change is reported every cluster of both lists was sorted. *)
Lemma checkPairs_unchanged_sorted new last :
  length new = length last ->
  changed (checkPairs sortEndpoints new last) = false ->
  new_after (checkPairs sortEndpoints new last) = map (sortCluster sortEndpoints) new /\
  last_after (checkPairs sortEndpoints new last) = map (sortCluster sortEndpoints) last.
Proof.
  revert last. induction new as [|c1 new IH]; intros [|c2 last] Hlen;
    simpl in *; try discriminate; [done|].
  injection Hlen as Hlen. destruct (negb _); simpl; [done|].
  intros H. destruct (IH last Hlen H) as [-> ->]. done.
Qed.
End ClusterDiff.

(** ** Traces *)

Lemma sends_app tr1 tr2 : sends (tr1 ++ tr2) = sends tr1 ++ sends tr2.
Proof. unfold sends. apply flat_map_app. Qed.

Lemma serviceConfig_sends AddEnvTag cat name passing dc :
  sends (serviceConfig AddEnvTag cat name passing dc).2 = [].
Proof.
  unfold serviceConfig. destruct (_ || _); [done|]. by destruct (cat name).
Qed.

Lemma range_clusters_sends AddEnvTag cat m dc ord :
  sends (range_clusters AddEnvTag cat m dc ord).2 = [].
Proof.
  induction ord as [|name ord IH]; simpl; [done|].
  pose proof (serviceConfig_sends AddEnvTag cat name (m !!! name) dc) as H.
  destruct (serviceConfig _ _ _ _ _) as [c tr].
  destruct (range_clusters _ _ _ _ _) as [cs tr']. simpl in *.
  by rewrite sends_app, H, IH.
Qed.

Lemma range_clusters_fst AddEnvTag cat m dc ord :
  (range_clusters AddEnvTag cat m dc ord).1 =
  map (fun name => (serviceConfig AddEnvTag cat name (m !!! name) dc).1) ord.
Proof.
  induction ord as [|name ord IH]; simpl; [done|].
  destruct (serviceConfig _ _ _ _ _) as [c tr].
  destruct (range_clusters _ _ _ _ _) as [cs tr']. simpl in *. by rewrite IH.
Qed.

(** ** Sorting by ID, for any correct sort *)

Lemma NoDup_map_eq {A B} (f : A -> B) (l : list A) x y :
  NoDup (map f l) -> x ∈ l -> y ∈ l -> f x = f y -> x = y.
Proof.
  induction l as [|a l IH]; simpl; intros Hnd Hx Hy Hf; [by inv Hx|].
  inv Hnd. inv Hx; inv Hy; auto.
  - exfalso. match goal with H : _ ∉ _ |- _ => apply H end.
    rewrite Hf. by apply (list_elem_of_fmap_2 f).
  - exfalso. match goal with H : _ ∉ _ |- _ => apply H end.
    rewrite <- Hf. by apply (list_elem_of_fmap_2 f).
Qed.

Section SortSpec.
Variable sortEndpoints : list Endpoint.t -> list Endpoint.t.
Hypothesis sort_perm : forall l, sortEndpoints l ≡ₚ l.
Hypothesis sort_sorted : forall l, Sorted ID_le (sortEndpoints l).

Lemma sortedEndpoints_eq_perm c1 c2 :
  sortedEndpoints sortEndpoints c1 = sortedEndpoints sortEndpoints c2 ->
  slice_perm (Cluster.Endpoints c1) (Cluster.Endpoints c2).
Proof.
  unfold sortedEndpoints.
  destruct (Cluster.Endpoints c1) as [|l1], (Cluster.Endpoints c2) as [|l2];
    simpl; try done.
  intros [= H]. by rewrite <- (sort_perm l1), H, sort_perm.
Qed.

(** With pairwise distinct IDs the sorted order does not depend on the
    order before. *)
Lemma perm_distinct_sortedEndpoints c1 c2 :
  slice_perm (Cluster.Endpoints c1) (Cluster.Endpoints c2) ->
  NoDup (cluster_IDs c1) ->
  sortedEndpoints sortEndpoints c1 = sortedEndpoints sortEndpoints c2.
Proof.
  unfold sortedEndpoints, cluster_IDs.
  destruct (Cluster.Endpoints c1) as [|l1], (Cluster.Endpoints c2) as [|l2];
    simpl; try done.
  intros Hp Hnd. f_equal.
  apply (Sorted_unique_strong ID_le); auto.
  - intros x1 x2 Hx1 Hx2 H12 H21.
    apply (NoDup_map_eq Endpoint.ID l1); auto.
    + by rewrite <- (sort_perm l1).
    + by rewrite Hp, <- (sort_perm l2).
    + by apply String.leb_antisym.
  - by rewrite !sort_perm.
Qed.

Lemma sortCluster_sorted c : endpoints_sorted (sortCluster sortEndpoints c).
Proof.
  unfold endpoints_sorted, sortCluster. simpl.
  destruct (Cluster.Endpoints c); simpl; [constructor|apply sort_sorted].
Qed.

Lemma replaced_endpoint_not_perm (l : list Endpoint.t) k e e' :
  l !! k = Some e -> e' <> e -> ~ (<[k:=e']> l ≡ₚ l).
Proof.
  intros Hk Hne Hp.
  rewrite insert_take_drop in Hp by (by eapply lookup_lt_Some).
  rewrite <- (take_drop_middle l k e Hk) in Hp at 3.
  rewrite <- !Permutation_middle in Hp.
  rewrite (Permutation_count_occ Endpoint_eq_dec) in Hp.
  specialize (Hp e'). simpl in Hp.
  destruct (Endpoint_eq_dec e' e') as [_|]; [|done].
  destruct (Endpoint_eq_dec e e') as [->|_]; [done|]. lia.
Qed.
End SortSpec.

(** ** The two loops around the diff *)

Section Loops.
Variable sortEndpoints : list Endpoint.t -> list Endpoint.t.
Variable AddEnvTag : Cluster.t -> Cluster.t.
Variable passingServices : list HealthCheck.t -> list string -> list HealthCheck.t.

(** An iteration of [watchService] whose passing set differs from the
    last one: the new clusters are built, compared, sent when they
    changed, and kept. *)
Lemma watchService_iter_resolved service status dc st services idx cat ord :
  let pass := passingServices (flat_map ServiceEntry.Checks services) status in
  let built := servicesConfig AddEnvTag cat pass dc ord in
  let r := checkClusterChanged sortEndpoints built.1 (lastConfig st) in
  checkCheckersEqual (oldCheckers st) pass = false ->
  watchService_iter sortEndpoints AddEnvTag passingServices service status dc st
    (mkCycle (HealthOk services idx) cat ord) =
  (mkWatch idx pass (new_after r),
   EvFetch service dc (lastIndex st) :: built.2 ++ (if changed r then [EvSend (new_after r)] else [])).
Proof.
  intros pass built r Hne. unfold watchService_iter. simpl.
  fold pass. rewrite Hne. fold built. by destruct built.
Qed.

(** An iteration of [watchService] whose passing set matches the last
    one: only the cursor moves. *)
Lemma watchService_iter_suppressed service status dc st services idx cat ord :
  let pass := passingServices (flat_map ServiceEntry.Checks services) status in
  checkCheckersEqual (oldCheckers st) pass = true ->
  watchService_iter sortEndpoints AddEnvTag passingServices service status dc st
    (mkCycle (HealthOk services idx) cat ord) =
  (mkWatch idx (oldCheckers st) (lastConfig st), [EvFetch service dc (lastIndex st)]).
Proof.
  intros pass Heq. unfold watchService_iter. simpl. fold pass. by rewrite Heq.
Qed.

Lemma watchService_iter_diff service status dc st services idx cat ord :
  let pass := passingServices (flat_map ServiceEntry.Checks services) status in
  let newConfig := (servicesConfig AddEnvTag cat pass dc ord).1 in
  let r := checkClusterChanged sortEndpoints newConfig (lastConfig st) in
  let out := watchService_iter sortEndpoints AddEnvTag passingServices service status
               dc st (mkCycle (HealthOk services idx) cat ord) in
  checkCheckersEqual (oldCheckers st) pass = false ->
  sends out.2 = (if changed r then [new_after r] else []) /\
  lastConfig out.1 = new_after r /\
  Forall2 (touched sortEndpoints) newConfig (new_after r).
Proof.
  intros pass newConfig r out Hne. subst out.
  rewrite watchService_iter_resolved by done. fold pass newConfig r. simpl.
  split; [|split; [done|apply checkClusterChanged_touched]].
  rewrite sends_app. unfold servicesConfig. rewrite range_clusters_sends.
  by destruct (changed r).
Qed.

Lemma watchServices_iter_diff service st chosen value :
  let result := merged service (<[chosen := value]> (lastConfigs st)) in
  let r := checkClusterChanged sortEndpoints result (lastResult st) in
  chosen < length (lastConfigs st) ->
  exists st' tr,
    watchServices_iter sortEndpoints service st (SelectRecv chosen value) = Some (st', tr) /\
    sends tr = (if changed r then [new_after r] else []) /\
    lastResult st' = new_after r /\
    lastConfigs st' = <[chosen := value]> (lastConfigs st) /\
    cases st' = cases st /\
    Forall2 (touched sortEndpoints) result (new_after r).
Proof.
  intros result r Hlt. unfold watchServices_iter.
  apply Nat.ltb_lt in Hlt. rewrite Hlt. fold result r.
  eexists _, _. split; [done|]. simpl.
  split; [by destruct (changed r)|].
  repeat split. apply checkClusterChanged_touched.
Qed.
End Loops.

(** ** The merge of the aggregator *)

Lemma elems_append {A} (s : slice A) xs : elems (append s xs) = elems s ++ xs.
Proof. destruct s, xs; simpl; by rewrite ?app_nil_r. Qed.

Lemma merge_endpoints_elems slots eps :
  elems (merge_endpoints slots eps) =
  elems eps ++ concat (map slot_endpoints (List.filter contributes slots)).
Proof.
  revert eps. induction slots as [|slot slots IH]; intros eps; simpl.
  - by rewrite app_nil_r.
  - destruct (contributes slot); simpl; rewrite IH; [|done].
    by rewrite elems_append, <- app_assoc.
Qed.


(** Slots that do not contribute add nothing to the concatenation. *)
Lemma concat_contributing slots :
  concat (map slot_endpoints (List.filter contributes slots)) =
  concat (map slot_endpoints slots).
Proof.
  induction slots as [|slot slots IH]; simpl; [done|].
  destruct (contributes slot) eqn:E; simpl; rewrite IH; [done|].
  destruct slot as [|c rest]; simpl in *; [done|].
  apply negb_false_iff, Nat.eqb_eq in E. by destruct (elems _).
Qed.

(** ** Closed channels *)



(** ** The passing set *)

Lemma check_match_spec j h : check_match j h = true <-> same_check j h.
Proof.
  unfold check_match, same_check, DeepEqual.
  rewrite !andb_true_iff, !String.eqb_eq, bool_decide_eq_true. tauto.
Qed.

Lemma checkIn_spec h1 h2 : checkIn h1 h2 = true <-> contained h1 h2.
Proof.
  unfold contained. induction h1 as [|h h1 IH]; simpl.
  - split; [|done]. intros _ h Hh. by inv Hh.
  - destruct (existsb _ h2) eqn:E.
    + rewrite IH. apply existsb_exists in E as (j & Hj & Hm). split.
      * intros H x Hx. inv Hx; [|by apply H].
        exists j. split; [by apply list_elem_of_In|by apply check_match_spec].
      * intros H x Hx. apply H. by right.
    + split; [done|]. intros H. destruct (H h) as (j & Hj & Hm); [by left|].
      assert (existsb (fun j => check_match j h) h2 = true); [|congruence].
      apply existsb_exists. exists j.
      split; [by apply list_elem_of_In|by apply check_match_spec].
Qed.

Lemma checkCheckersEqual_spec old new :
  checkCheckersEqual old new = true <-> contained old new /\ contained new old.
Proof. unfold checkCheckersEqual. by rewrite andb_true_iff, !checkIn_spec. Qed.

(** ** Grouping the checks *)

Lemma group_checks_passing checks : forall m name id,
  id ∈ (group_checks checks m !!! name : gset string) <->
  id ∈ (m !!! name : gset string) \/
  exists c, c ∈ checks /\ HealthCheck.ServiceName c = name /\ HealthCheck.ServiceID c = id.
Proof.
  induction checks as [|c checks IH]; intros m name id; simpl.
  - split; [by left|]. intros [H|(c & Hc & _)]; [done|by inv Hc].
  - rewrite IH. clear IH.
    set (n := HealthCheck.ServiceName c). set (i := HealthCheck.ServiceID c).
    set (m' := match m !! n with Some _ => m | None => <[n:=∅]> m end).
    assert (Hm' : forall k, (m' !!! k : gset string) = m !!! k).
    { intros k. subst m'. destruct (m !! n) eqn:E; [done|].
      destruct (decide (n = k)) as [<-|Hne].
      - rewrite lookup_total_insert_eq. unfold lookup_total, map_lookup_total.
        by rewrite E.
      - by rewrite lookup_total_insert_ne. }
    destruct (decide (n = name)) as [<-|Hne].
    + rewrite lookup_total_insert_eq, Hm'. split.
      * intros [H|(c' & Hc' & H1 & H2)].
        -- apply elem_of_union in H as [H|H]; [|by left].
           apply elem_of_singleton in H. right. exists c. split; [by left|done].
        -- right. exists c'. split; [by right|done].
      * intros [H|(c' & Hc' & H1 & H2)].
        -- left. apply elem_of_union. by right.
        -- inv Hc'.
           ++ left. apply elem_of_union. left. by apply elem_of_singleton.
           ++ right. by exists c'.
    + rewrite lookup_total_insert_ne, Hm' by done. split.
      * intros [H|(c' & Hc' & H1 & H2)]; [by left|].
        right. exists c'. split; [by right|done].
      * intros [H|(c' & Hc' & H1 & H2)]; [by left|].
        inv Hc'; try done. right. by exists c'.
Qed.

(** ** Building the endpoints *)

Lemma add_endpoints_spec passing svcs : forall acc,
  add_endpoints passing svcs (Slice acc) =
  Slice (acc ++ map endpoint_of
                  (filter (fun svc => CatalogService.ServiceID svc ∈ passing) svcs)).
Proof.
  induction svcs as [|svc svcs IH]; intros acc; simpl.
  - by rewrite app_nil_r.
  - rewrite filter_cons. destruct (decide _); simpl.
    + rewrite IH. by rewrite <- app_assoc.
    + apply IH.
Qed.

Lemma serviceConfig_guard name (passing : gset string) :
  name <> "" -> size passing <> 0 ->
  String.eqb name "" || (size passing =? 0)%nat = false.
Proof.
  intros H1 H2. apply orb_false_iff. split.
  - by apply String.eqb_neq.
  - by apply Nat.eqb_neq.
Qed.

(** ** What the diff leaves sorted *)

Section DiffSorts.
Variable sortEndpoints : list Endpoint.t -> list Endpoint.t.
Hypothesis sort_sorted : forall l, Sorted ID_le (sortEndpoints l).

(** A list compared with itself is reported unchanged. *)
Lemma checkClusterChanged_refl l :
  changed (checkClusterChanged sortEndpoints l l) = false.
Proof.
  apply checkClusterChanged_unchanged. split; [done|].
  intros i c1 c2 H1 H2. congruence.
Qed.

(** When a change is reported between lists of one length, the loop has
    stopped at the first pair whose sorted endpoints differ. *)
Lemma checkClusterChanged_first_difference new : forall last,
  length new = length last ->
  changed (checkClusterChanged sortEndpoints new last) = true ->
  exists i c1 c2,
    new !! i = Some c1 /\ last !! i = Some c2 /\
    sortedEndpoints sortEndpoints c1 <> sortedEndpoints sortEndpoints c2 /\
    (forall k d1 d2, k < i -> new !! k = Some d1 -> last !! k = Some d2 ->
       sortedEndpoints sortEndpoints d1 = sortedEndpoints sortEndpoints d2) /\
    new_after (checkClusterChanged sortEndpoints new last)
    = map (sortCluster sortEndpoints) (take (S i) new) ++ drop (S i) new /\
    last_after (checkClusterChanged sortEndpoints new last)
    = map (sortCluster sortEndpoints) (take (S i) last) ++ drop (S i) last.
Proof.
  unfold checkClusterChanged.
  induction new as [|c1 new IH]; intros [|c2 last] Hlen; simpl in *; try done.
  injection Hlen as Hlen. rewrite Hlen, Nat.eqb_refl. simpl.
  specialize (IH last Hlen). rewrite Hlen, Nat.eqb_refl in IH. simpl in IH.
  unfold DeepEqual. case_bool_decide as E; simpl.
  - intros Hch. destruct (IH Hch) as (i & d1 & d2 & H1 & H2 & H3 & H4 & H5 & H6).
    exists (S i), d1, d2. split; [done|]. split; [done|]. split; [done|].
    split; [|by rewrite H5, H6].
    intros [|k] e1 e2 Hk; simpl; [by intros [= <-] [= <-]|].
    apply H4. lia.
  - intros _. exists 0, c1, c2. split; [done|]. split; [done|]. split; [done|].
    split; [intros; lia|]. by rewrite !take_0, !drop_0.
Qed.

Lemma map_sortCluster_sorted l :
  Forall endpoints_sorted (map (sortCluster sortEndpoints) l).
Proof.
  apply Forall_forall. intros c Hc. apply list_elem_of_In in Hc.
  apply in_map_iff in Hc as (c0 & <- & _). by apply sortCluster_sorted.
Qed.

Lemma take_sorted_prefix i (l : list Cluster.t) :
  i <= length l ->
  take i (map (sortCluster sortEndpoints) (take i l) ++ drop i l)
  = map (sortCluster sortEndpoints) (take i l).
Proof.
  intros Hi. rewrite take_app_le by (rewrite length_map, length_take; lia).
  rewrite firstn_all2; [done|]. rewrite length_map, length_take. lia.
Qed.

Lemma watchServices_iter_first service st chosen value :
  let result := merged service (<[chosen := value]> (lastConfigs st)) in
  chosen < length (lastConfigs st) -> lastResult st = [] ->
  watchServices_iter sortEndpoints service st (SelectRecv chosen value)
  = Some (mkAgg (cases st) (<[chosen := value]> (lastConfigs st)) result, [EvSend result]).
Proof.
  intros result Hlt Hnil. unfold watchServices_iter.
  apply Nat.ltb_lt in Hlt. rewrite Hlt, Hnil. done.
Qed.

Lemma watchServices_iter_second service st chosen value :
  let result := merged service (<[chosen := value]> (lastConfigs st)) in
  chosen < length (lastConfigs st) ->
  length (lastResult st) = 1 ->
  exists st' tr,
    watchServices_iter sortEndpoints service st (SelectRecv chosen value)
      = Some (st', tr) /\
    lastResult st' = map (sortCluster sortEndpoints) result /\
    Forall endpoints_sorted (lastResult st') /\
    Forall (Forall endpoints_sorted) (sends tr).
Proof.
  intros result Hlt Hone.
  destruct (watchServices_iter_diff sortEndpoints service st chosen value Hlt)
    as (st' & tr & H1 & H2 & H3 & _ & _ & _).
  exists st', tr. split; [done|]. fold result in H2, H3.
  assert (Hnew : new_after (checkClusterChanged sortEndpoints result (lastResult st))
                 = map (sortCluster sortEndpoints) result).
  { destruct (lastResult st) as [|c2 [|? ?]]; simpl in Hone; try discriminate.
    unfold result, merged, checkClusterChanged. simpl.
    by destruct (negb (DeepEqual _ _)). }
  rewrite Hnew in H2, H3. rewrite H3. split; [done|].
  split; [apply map_sortCluster_sorted|].
  rewrite H2. destruct (changed _); [|constructor].
  constructor; [apply map_sortCluster_sorted|constructor].
Qed.

Lemma watchServices_run_sorted service sels : forall st st' tr,
  watchServices_run sortEndpoints service st sels = Some (st', tr) ->
  length (lastResult st) = 1 ->
  Forall (Forall endpoints_sorted) (sends tr).
Proof.
  induction sels as [|sel sels IH]; intros st st' tr; simpl.
  - intros [= <- <-] _. constructor.
  - destruct (watchServices_iter _ _ _ _) as [[st1 tr1]|] eqn:E1; [|done].
    destruct (watchServices_run _ _ _ _) as [[st2 tr2]|] eqn:E2; [|done].
    intros [= <- <-] Hone. rewrite sends_app. apply Forall_app.
    destruct sel as [chosen|chosen value].
    + simpl in E1. destruct (_ <? _)%nat; [|done]. injection E1 as <- <-.
      split; [constructor|]. by apply (IH _ _ _ E2).
    + assert (Hlt : chosen < length (lastConfigs st)).
      { simpl in E1. destruct (chosen <? _)%nat eqn:E; [|done]. by apply Nat.ltb_lt. }
      destruct (watchServices_iter_second service st chosen value Hlt Hone)
        as (st1' & tr1' & Ha & Hb & _ & Hd).
      rewrite E1 in Ha. injection Ha as <- <-.
      split; [done|]. apply (IH _ _ _ E2). by rewrite Hb, length_map.
Qed.

Lemma watchServices_run_sorted_tail service sels : forall st st' tr,
  watchServices_run sortEndpoints service st sels = Some (st', tr) ->
  lastResult st = [] ->
  Forall (Forall endpoints_sorted) (tail (sends tr)).
Proof.
  induction sels as [|sel sels IH]; intros st st' tr; simpl.
  - intros [= <- <-] _. constructor.
  - destruct (watchServices_iter _ _ _ _) as [[st1 tr1]|] eqn:E1; [|done].
    destruct (watchServices_run _ _ _ _) as [[st2 tr2]|] eqn:E2; [|done].
    intros [= <- <-] Hnil. rewrite sends_app.
    destruct sel as [chosen|chosen value].
    + simpl in E1. destruct (_ <? _)%nat; [|done]. injection E1 as <- <-.
      simpl. by apply (IH _ _ _ E2).
    + assert (Hlt : chosen < length (lastConfigs st)).
      { simpl in E1. destruct (chosen <? _)%nat eqn:E; [|done]. by apply Nat.ltb_lt. }
      rewrite (watchServices_iter_first service st chosen value Hlt Hnil) in E1.
      injection E1 as <- <-. simpl.
      by apply (watchServices_run_sorted service sels _ _ _ E2).
Qed.
End DiffSorts.

(** * The claims *)

Section Claims.
Variable sortEndpoints : list Endpoint.t -> list Endpoint.t.
Variable AddEnvTag : Cluster.t -> Cluster.t.
Variable passingServices : list HealthCheck.t -> list string -> list HealthCheck.t.
Hypothesis sort_perm : forall l, sortEndpoints l ≡ₚ l.
Hypothesis sort_sorted : forall l, Sorted ID_le (sortEndpoints l).

(** C2, amended.  The new cluster list equals the last one iff both have
    the same number of clusters and at every position the endpoints of the
    two clusters, each sorted by ID, are equal.  In an iteration of
    [watchService] that builds a list, and in an iteration of
    [watchServices] that receives one, the list is sent iff the comparison
    reports a change, and it is kept as the last list either way.  Feeding
    a list whose clusters have the endpoints of the last one, in the same
    order or, when their IDs are pairwise distinct, in any order, reports
    no change; a list in which one endpoint differs in ID, address, port
    or tags reports a change. *)
Theorem cluster_diff_suppression :
  (forall new last,
     changed (checkClusterChanged sortEndpoints new last) = false <->
     length new = length last /\
     forall i c1 c2, new !! i = Some c1 -> last !! i = Some c2 ->
       sortedEndpoints sortEndpoints c1 = sortedEndpoints sortEndpoints c2) /\
  (forall service status dc st services idx cat ord,
     let pass := passingServices (flat_map ServiceEntry.Checks services) status in
     let newConfig := (servicesConfig AddEnvTag cat pass dc ord).1 in
     let r := checkClusterChanged sortEndpoints newConfig (lastConfig st) in
     let out := watchService_iter sortEndpoints AddEnvTag passingServices service status
                  dc st (mkCycle (HealthOk services idx) cat ord) in
     checkCheckersEqual (oldCheckers st) pass = false ->
     sends out.2 = (if changed r then [new_after r] else []) /\
     lastConfig out.1 = new_after r /\
     Forall2 (touched sortEndpoints) newConfig (new_after r)) /\
  (forall service st chosen value,
     let result := merged service (<[chosen := value]> (lastConfigs st)) in
     let r := checkClusterChanged sortEndpoints result (lastResult st) in
     chosen < length (lastConfigs st) ->
     exists st' tr,
       watchServices_iter sortEndpoints service st (SelectRecv chosen value)
         = Some (st', tr) /\
       sends tr = (if changed r then [new_after r] else []) /\
       lastResult st' = new_after r /\
       Forall2 (touched sortEndpoints) result (new_after r)) /\
  (forall new last,
     Forall2 (fun c1 c2 =>
                Cluster.Endpoints c1 = Cluster.Endpoints c2 \/
                (slice_perm (Cluster.Endpoints c1) (Cluster.Endpoints c2) /\
                 NoDup (cluster_IDs c1))) new last ->
     changed (checkClusterChanged sortEndpoints new last) = false) /\
  (forall new last i c1 c2 k e e',
     new !! i = Some c1 -> last !! i = Some c2 ->
     elems (Cluster.Endpoints c2) !! k = Some e ->
     elems (Cluster.Endpoints c1) = <[k := e']> (elems (Cluster.Endpoints c2)) ->
     Endpoint.ID e' <> Endpoint.ID e \/ Endpoint.Addr e' <> Endpoint.Addr e \/
     Endpoint.Port e' <> Endpoint.Port e \/ Endpoint.Tags e' <> Endpoint.Tags e ->
     changed (checkClusterChanged sortEndpoints new last) = true).
Proof.
  split; [apply checkClusterChanged_unchanged|].
  split; [apply watchService_iter_diff|].
  split.
  { intros service st chosen value result r Hlt.
    destruct (watchServices_iter_diff sortEndpoints service st chosen value Hlt)
      as (st' & tr & H1 & H2 & H3 & _ & _ & H4).
    by exists st', tr. }
  split.
  - intros new last HF. apply checkClusterChanged_unchanged.
    split; [by eapply Forall2_length|].
    intros i c1 c2 H1 H2.
    destruct (Forall2_lookup_lr _ _ _ _ _ _ HF H1 H2) as [Heq | [Hp Hnd]].
    + unfold sortedEndpoints. by rewrite Heq.
    + by apply perm_distinct_sortedEndpoints.
  - intros new last i c1 c2 k e e' H1 H2 Hk Hins Hne.
    destruct (changed _) eqn:Hch; [done|]. exfalso.
    apply checkClusterChanged_unchanged in Hch as [_ Hch].
    specialize (Hch i c1 c2 H1 H2).
    apply (sortedEndpoints_eq_perm sortEndpoints sort_perm) in Hch.
    assert (Hp : elems (Cluster.Endpoints c1) ≡ₚ elems (Cluster.Endpoints c2)).
    { destruct (Cluster.Endpoints c1), (Cluster.Endpoints c2); simpl in *; done. }
    rewrite Hins in Hp.
    apply (replaced_endpoint_not_perm _ k e e' Hk); [|done].
    intros ->. tauto.
Qed.

(** C9, amended.  The comparison sorts in place, by ID, the endpoints of
    the clusters it reaches, in both of its arguments: every cluster when
    it reports no change, the clusters up to and including the first pair
    that differs when it reports a change, and none when the two lists
    differ in length.  So a list that the watcher keeps without sending it
    has the endpoints of every cluster in non-decreasing ID order, and so
    has every merged cluster the aggregator sends or keeps once its last
    result is not empty, that is from the second value it receives.  The
    first list a watcher or the aggregator sends is compared with the empty
    initial list: it is sent and kept in the order it was built. *)
Theorem diff_sorts_what_it_compares :
  (forall new last,
     let r := checkClusterChanged sortEndpoints new last in
     Forall2 (touched sortEndpoints) new (new_after r) /\
     Forall2 (touched sortEndpoints) last (last_after r)) /\
  (forall new last,
     let r := checkClusterChanged sortEndpoints new last in
     changed r = false ->
     new_after r = map (sortCluster sortEndpoints) new /\
     last_after r = map (sortCluster sortEndpoints) last /\
     Forall endpoints_sorted (new_after r) /\
     Forall endpoints_sorted (last_after r)) /\
  (forall new last,
     length new <> length last ->
     checkClusterChanged sortEndpoints new last = mkCheck true new last) /\
  (forall service st chosen value,
     let result := merged service (<[chosen := value]> (lastConfigs st)) in
     chosen < length (lastConfigs st) ->
     length (lastResult st) = 1 ->
     exists st' tr,
       watchServices_iter sortEndpoints service st (SelectRecv chosen value)
         = Some (st', tr) /\
       lastResult st' = map (sortCluster sortEndpoints) result /\
       Forall endpoints_sorted (lastResult st') /\
       Forall (Forall endpoints_sorted) (sends tr)) /\
  (forall new last,
     let r := checkClusterChanged sortEndpoints new last in
     length new = length last ->
     changed r = true ->
     exists i c1 c2,
       new !! i = Some c1 /\ last !! i = Some c2 /\
       sortedEndpoints sortEndpoints c1 <> sortedEndpoints sortEndpoints c2 /\
       (forall k d1 d2, k < i -> new !! k = Some d1 -> last !! k = Some d2 ->
          sortedEndpoints sortEndpoints d1 = sortedEndpoints sortEndpoints d2) /\
       new_after r = map (sortCluster sortEndpoints) (take (S i) new) ++ drop (S i) new /\
       last_after r = map (sortCluster sortEndpoints) (take (S i) last) ++ drop (S i) last /\
       Forall endpoints_sorted (take (S i) (new_after r)) /\
       Forall endpoints_sorted (take (S i) (last_after r))) /\
  (forall service status dc st services idx cat ord,
     let pass := passingServices (flat_map ServiceEntry.Checks services) status in
     let newConfig := (servicesConfig AddEnvTag cat pass dc ord).1 in
     let r := checkClusterChanged sortEndpoints newConfig (lastConfig st) in
     let out := watchService_iter sortEndpoints AddEnvTag passingServices service status
                  dc st (mkCycle (HealthOk services idx) cat ord) in
     checkCheckersEqual (oldCheckers st) pass = false ->
     lastConfig out.1 = new_after r /\
     sends out.2 = (if changed r then [new_after r] else []) /\
     (changed r = false ->
        sends out.2 = [] /\
        lastConfig out.1 = map (sortCluster sortEndpoints) newConfig /\
        Forall endpoints_sorted (lastConfig out.1)) /\
     (length newConfig <> length (lastConfig st) ->
        sends out.2 = [newConfig] /\ lastConfig out.1 = newConfig)) /\
  (forall service st chosen value,
     let result := merged service (<[chosen := value]> (lastConfigs st)) in
     chosen < length (lastConfigs st) ->
     lastResult st = [] ->
     length result = 1 /\
     watchServices_iter sortEndpoints service st (SelectRecv chosen value)
     = Some (mkAgg (cases st) (<[chosen := value]> (lastConfigs st)) result,
             [EvSend result])) /\
  (forall service st sels st' tr,
     watchServices_run sortEndpoints service st sels = Some (st', tr) ->
     (length (lastResult st) = 1 -> Forall (Forall endpoints_sorted) (sends tr)) /\
     (lastResult st = [] -> Forall (Forall endpoints_sorted) (tail (sends tr)))).
Proof.
  split; [apply checkClusterChanged_touched|].
  split; [|split; [|split; [|split; [|split; [|split]]]]].
  - intros new last r Hch. subst r. unfold checkClusterChanged in *.
    destruct (length new =? length last)%nat eqn:E; simpl in *; [|done].
    apply Nat.eqb_eq in E.
    destruct (checkPairs_unchanged_sorted sortEndpoints new last E Hch) as [-> ->].
    split; [done|]. split; [done|].
    split; by apply map_sortCluster_sorted.
  - intros new last Hlen. unfold checkClusterChanged.
    apply Nat.eqb_neq in Hlen. by rewrite Hlen.
  - intros service st chosen value. by apply watchServices_iter_second.
  - intros new last r Hlen Hch.
    destruct (checkClusterChanged_first_difference sortEndpoints new last Hlen Hch)
      as (i & c1 & c2 & H1 & H2 & H3 & H4 & H5 & H6).
    exists i, c1, c2. fold r in H5, H6.
    split; [done|]. split; [done|]. split; [done|]. split; [done|].
    split; [done|]. split; [done|].
    rewrite H5, H6.
    apply lookup_lt_Some in H1, H2.
    rewrite !(take_sorted_prefix sortEndpoints) by lia.
    split; by apply map_sortCluster_sorted.
  - intros service status dc st services idx cat ord pass newConfig r out Hne.
    destruct (watchService_iter_diff sortEndpoints AddEnvTag passingServices service
                status dc st services idx cat ord Hne) as (Hs & Hl & _).
    fold pass newConfig r out in Hs, Hl.
    split; [done|]. split; [done|]. split.
    + intros Hch. rewrite Hs, Hl, Hch. split; [done|].
      subst r. unfold checkClusterChanged in *.
      destruct (length newConfig =? length (lastConfig st))%nat eqn:E; simpl in *; [|done].
      apply Nat.eqb_eq in E.
      destruct (checkPairs_unchanged_sorted sortEndpoints newConfig _ E Hch) as [-> _].
      split; [done|]. by apply map_sortCluster_sorted.
    + intros Hlen. rewrite Hs, Hl. subst r. unfold checkClusterChanged.
      apply Nat.eqb_neq in Hlen. by rewrite Hlen.
  - intros service st chosen value result Hlt Hnil. split; [done|].
    by apply watchServices_iter_first.
  - intros service st sels st' tr Hrun. split; intros H.
    + by eapply watchServices_run_sorted.
    + by eapply watchServices_run_sorted_tail.
Qed.

(** C8.  The cluster diff depends on the order of the clusters: a list
    compared with itself is reported unchanged, yet some list and a
    rearrangement of it are reported as changed, so the result is not
    invariant under rearranging a list.  [servicesConfig] builds its list
    in the order in which the runtime ranges over a map, which may be any
    order of the keys: two orders give the same clusters, rearranged, and
    (whenever [AddEnvTag] keeps the number of endpoints) there are inputs
    for which the diff reports the two results of one grouping as changed,
    while each result compared with itself is unchanged. *)
Theorem diff_depends_on_cluster_order :
  (forall l, changed (checkClusterChanged sortEndpoints l l) = false) /\
  (exists l1 l2, l1 ≡ₚ l2 /\ l1 <> l2 /\
     changed (checkClusterChanged sortEndpoints l1 l2) = true /\
     changed (checkClusterChanged sortEndpoints l1 l1) = false /\
     changed (checkClusterChanged sortEndpoints l2 l2) = false) /\
  ~ (forall l1 l2 last, l1 ≡ₚ l2 ->
       changed (checkClusterChanged sortEndpoints l1 last)
       = changed (checkClusterChanged sortEndpoints l2 last)) /\
  (forall cat checks dc o1 o2,
     range_order (group_checks checks ∅) o1 ->
     range_order (group_checks checks ∅) o2 ->
     (servicesConfig AddEnvTag cat checks dc o1).1 ≡ₚ
     (servicesConfig AddEnvTag cat checks dc o2).1) /\
  ((forall c, length (elems (Cluster.Endpoints (AddEnvTag c)))
              = length (elems (Cluster.Endpoints c))) ->
   exists cat checks dc o1 o2,
     let built1 := (servicesConfig AddEnvTag cat checks dc o1).1 in
     let built2 := (servicesConfig AddEnvTag cat checks dc o2).1 in
     range_order (group_checks checks ∅) o1 /\
     range_order (group_checks checks ∅) o2 /\
     built1 ≡ₚ built2 /\
     changed (checkClusterChanged sortEndpoints built1 built2) = true /\
     changed (checkClusterChanged sortEndpoints built1 built1) = false /\
     changed (checkClusterChanged sortEndpoints built2 built2) = false).
Proof.
  assert (Hex : exists l1 l2, l1 ≡ₚ l2 /\ l1 <> l2 /\
     changed (checkClusterChanged sortEndpoints l1 l2) = true).
  { pose (e := Endpoint.mk "i1" "10.0.0.1" 8080 (Slice ["dc=us"])).
    pose (A := Cluster.mk "a" (Slice [e])).
    pose (B := Cluster.mk "b" (Slice [])).
    exists [A; B], [B; A]. split; [apply perm_swap|]. split; [done|].
    destruct (changed _) eqn:Hch; [done|]. exfalso.
    apply checkClusterChanged_unchanged in Hch as [_ Hch].
    specialize (Hch 0 A B eq_refl eq_refl).
    apply (sortedEndpoints_eq_perm sortEndpoints sort_perm) in Hch. simpl in Hch.
    by apply Permutation_nil_r in Hch. }
  assert (Hperm : forall cat checks dc o1 o2,
     range_order (group_checks checks ∅) o1 ->
     range_order (group_checks checks ∅) o2 ->
     (servicesConfig AddEnvTag cat checks dc o1).1 ≡ₚ
     (servicesConfig AddEnvTag cat checks dc o2).1).
  { intros cat checks dc o1 o2 H1 H2. unfold servicesConfig.
    rewrite !range_clusters_fst. apply Permutation_map.
    unfold range_order in *. by rewrite H1, H2. }
  split; [apply checkClusterChanged_refl|].
  split; [|split; [|split; [exact Hperm|]]].
  - destruct Hex as (l1 & l2 & Hp & Hne & Hch). exists l1, l2.
    repeat split; try done; apply checkClusterChanged_refl.
  - intros Hinv. destruct Hex as (l1 & l2 & Hp & _ & Hch).
    specialize (Hinv l1 l2 l2 Hp).
    rewrite Hch, checkClusterChanged_refl in Hinv. done.
  - intros Hlen.
    pose (hc := fun name id =>
                  HealthCheck.mk "node" "check" "alive" "passing" id name Nil).
    pose (w1 := CatalogService.mk "w1" [] "us" "" "10.0.0.1" 8080).
    exists (fun name => if String.eqb name "web" then CatalogOk [w1] else CatalogOk []),
           [hc "web" "w1"; hc "api" "a1"], "us", ["web"; "api"], ["api"; "web"].
    intros built1 built2.
    assert (Ho1 : range_order (group_checks [hc "web" "w1"; hc "api" "a1"] ∅) ["web"; "api"]).
    { unfold range_order. vm_compute. done. }
    assert (Ho2 : range_order (group_checks [hc "web" "w1"; hc "api" "a1"] ∅) ["api"; "web"]).
    { unfold range_order. vm_compute. apply perm_swap. }
    split; [done|]. split; [done|]. split; [by apply Hperm|].
    split; [|split; apply checkClusterChanged_refl].
    destruct (changed _) eqn:Hch; [done|]. exfalso.
    apply checkClusterChanged_unchanged in Hch as [_ Hch].
    subst built1 built2.
    unfold servicesConfig in Hch. rewrite !range_clusters_fst in Hch.
    specialize (Hch 0 _ _ eq_refl eq_refl).
    apply (sortedEndpoints_eq_perm sortEndpoints sort_perm) in Hch.
    assert (Hl : forall s1 s2 : slice Endpoint.t,
               slice_perm s1 s2 -> length (elems s1) = length (elems s2)).
    { intros [|l1] [|l2]; simpl; try done. apply Permutation_length. }
    apply Hl in Hch. vm_compute serviceConfig in Hch. cbn [fst] in Hch.
    rewrite !Hlen in Hch. done.
Qed.



(** C3.  In an iteration of [watchService] whose fetch succeeds, if the new
    passing set and the last one are equal under containment both ways
    (every record of each has a match in the other, a match being equality
    of Node, CheckID, Name, Status, ServiceID and ServiceName and equality
    of the tags in order), the iteration makes no catalog lookup and sends
    nothing: its only call is the fetch, the last passing set and the last
    clusters stay as they were, and the next iteration starts with the
    long poll. *)
Theorem passing_set_suppression service status dc st services idx cat ord :
  let pass := passingServices (flat_map ServiceEntry.Checks services) status in
  let out := watchService_iter sortEndpoints AddEnvTag passingServices service status
               dc st (mkCycle (HealthOk services idx) cat ord) in
  contained (oldCheckers st) pass -> contained pass (oldCheckers st) ->
  out.2 = [EvFetch service dc (lastIndex st)] /\
  List.filter is_catalog out.2 = [] /\
  sends out.2 = [] /\
  oldCheckers out.1 = oldCheckers st /\
  lastConfig out.1 = lastConfig st /\
  forall cy, exists tr,
    (watchService_iter sortEndpoints AddEnvTag passingServices service status dc
       out.1 cy).2 = EvFetch service dc idx :: tr.
Proof.
  intros pass out H1 H2. subst out.
  rewrite watchService_iter_suppressed
    by (apply checkCheckersEqual_spec; by split).
  simpl. repeat split.
  intros cy. unfold watchService_iter. simpl.
  destruct (health cy); [by eexists|].
  destruct (checkCheckersEqual _ _); [by eexists|].
  destruct (servicesConfig _ _ _ _ _). by eexists.
Qed.

(** C4, amended.  A successful fetch sets the cursor to the index the
    registry returned, whether or not anything is sent; a failed fetch
    leaves the whole state, cursor included, as it was and is followed by
    the sleep only; every fetch is issued at the current cursor.  So the
    cursors after the successful fetches of a run are exactly the indices
    the registry returned, and they are non-decreasing exactly when those
    indices are: the watcher neither orders nor checks them. *)
Theorem cursor_follows_registry service status dc st :
  (forall services idx cat ord,
     lastIndex (watchService_iter sortEndpoints AddEnvTag passingServices service
                  status dc st (mkCycle (HealthOk services idx) cat ord)).1 = idx) /\
  (forall cat ord,
     watchService_iter sortEndpoints AddEnvTag passingServices service status dc st
       (mkCycle HealthErr cat ord) = (st, [EvFetch service dc (lastIndex st); EvSleep])) /\
  (forall cy, exists tr,
     (watchService_iter sortEndpoints AddEnvTag passingServices service status dc
        st cy).2 = EvFetch service dc (lastIndex st) :: tr) /\
  (forall cycles,
     cursors sortEndpoints AddEnvTag passingServices service status dc st cycles
       = returned_indices cycles) /\
  (forall cycles,
     Sorted N.le (cursors sortEndpoints AddEnvTag passingServices service status dc
                    st cycles)
     <-> Sorted N.le (returned_indices cycles)).
Proof.
  assert (Hok : forall st services idx cat ord,
    lastIndex (watchService_iter sortEndpoints AddEnvTag passingServices service
                 status dc st (mkCycle (HealthOk services idx) cat ord)).1 = idx).
  { intros st0 services idx cat ord. unfold watchService_iter. simpl.
    destruct (checkCheckersEqual _ _); [done|].
    by destruct (servicesConfig _ _ _ _ _). }
  assert (Hcur : forall cycles st,
    cursors sortEndpoints AddEnvTag passingServices service status dc st cycles
      = returned_indices cycles).
  { induction cycles as [|[h cat ord] cycles IH]; intros st0; simpl; [done|].
    destruct h as [|services idx]; simpl.
    - apply IH.
    - f_equal; [apply Hok|apply IH]. }
  split; [apply Hok|]. split; [done|]. split.
  - intros cy. unfold watchService_iter.
    destruct (health cy); [by eexists|].
    destruct (checkCheckersEqual _ _); [by eexists|].
    destruct (servicesConfig _ _ _ _ _). by eexists.
  - split; [intros cycles; apply Hcur|]. intros cycles. by rewrite Hcur.
Qed.

(** C10.  In a run of [watchService] from its initial state in which every
    successful fetch yields an empty passing set, nothing is ever sent and
    the catalog is never asked: the empty passing set equals the initial,
    empty last passing set (containment both ways holds vacuously), on the
    first successful fetch as on every later one, so the last passing set
    and the last clusters stay empty. *)
Theorem empty_service_never_sends service status dc cycles :
  no_passing passingServices status cycles ->
  let out := watchService_run sortEndpoints AddEnvTag passingServices service status
               dc watch_init cycles in
  sends out.2 = [] /\
  List.filter is_catalog out.2 = [] /\
  oldCheckers out.1 = [] /\
  lastConfig out.1 = [] /\
  checkCheckersEqual (oldCheckers watch_init) [] = true.
Proof.
  intros Hno out. subst out.
  assert (H : forall st, oldCheckers st = [] ->
    let out := watchService_run sortEndpoints AddEnvTag passingServices service
                 status dc st cycles in
    sends out.2 = [] /\ List.filter is_catalog out.2 = [] /\
    oldCheckers out.1 = [] /\ lastConfig out.1 = lastConfig st).
  { induction Hno as [|[h cat ord] cycles Hcy Hno IH]; intros st Hold; simpl.
    - done.
    - simpl in Hcy. unfold watchService_iter. simpl.
      destruct h as [|services idx].
      + destruct (IH st Hold) as (IH1 & IH2 & IH3 & IH4).
        destruct (watchService_run _ _ _ _ _ _ st cycles) as [st' tr']. simpl in *.
        done.
      + rewrite Hcy, Hold. simpl.
        destruct (IH (mkWatch idx [] (lastConfig st)) eq_refl)
          as (IH1 & IH2 & IH3 & IH4).
        destruct (watchService_run _ _ _ _ _ _ _ cycles) as [st' tr']. simpl in *.
        done. }
  destruct (H watch_init eq_refl) as (H1 & H2 & H3 & H4). done.
Qed.

(** C5, amended.  For a group with a name and at least one passing ID,
    [serviceConfig] asks the catalog once.  If the lookup fails the cluster
    of that name is returned with an empty endpoint list and [AddEnvTag] is
    not called.  If it succeeds [AddEnvTag] is called once on the cluster
    built, whatever the number of instances that matched; with no match it
    is called on a cluster with an empty endpoint list.  In a batch each
    group gets the cluster [serviceConfig] returns for its name alone, so a
    failed lookup does not touch the other groups. *)
Theorem catalog_failure_and_env_tag cat name (passing : gset string) dc :
  name <> "" -> size passing <> 0 ->
  let bare := {| Cluster.Name := name; Cluster.Endpoints := Slice [] |} in
  (cat name = CatalogErr ->
   serviceConfig AddEnvTag cat name passing dc = (bare, [EvCatalog name dc])) /\
  (forall svcs, cat name = CatalogOk svcs ->
   serviceConfig AddEnvTag cat name passing dc =
   (AddEnvTag
      {| Cluster.Name := name;
         Cluster.Endpoints :=
           Slice (map endpoint_of
                    (filter (fun svc => CatalogService.ServiceID svc ∈ passing) svcs)) |},
    [EvCatalog name dc; EvAddEnvTag name])) /\
  (forall svcs, cat name = CatalogOk svcs ->
   Forall (fun svc => CatalogService.ServiceID svc ∉ passing) svcs ->
   serviceConfig AddEnvTag cat name passing dc =
   (AddEnvTag bare, [EvCatalog name dc; EvAddEnvTag name])) /\
  (forall checks ord,
     (servicesConfig AddEnvTag cat checks dc ord).1 =
     map (fun n => (serviceConfig AddEnvTag cat n (group_checks checks ∅ !!! n) dc).1)
         ord).
Proof.
  intros Hname Hsize bare.
  assert (Hok : forall svcs, cat name = CatalogOk svcs ->
    serviceConfig AddEnvTag cat name passing dc =
    (AddEnvTag
       {| Cluster.Name := name;
          Cluster.Endpoints :=
            Slice (map endpoint_of
                     (filter (fun svc => CatalogService.ServiceID svc ∈ passing) svcs)) |},
     [EvCatalog name dc; EvAddEnvTag name])).
  { intros svcs Hcat. unfold serviceConfig.
    rewrite serviceConfig_guard, Hcat by done. simpl.
    by rewrite add_endpoints_spec. }
  split; [|split; [done|split]].
  - intros Hcat. unfold serviceConfig. by rewrite serviceConfig_guard, Hcat.
  - intros svcs Hcat Hnone. rewrite (Hok svcs Hcat).
    assert (Hnil : filter (fun svc => CatalogService.ServiceID svc ∈ passing) svcs = []).
    { clear Hcat. induction Hnone as [|svc svcs Hsvc Hnone IH]; [done|].
      rewrite filter_cons. by destruct (decide _). }
    by rewrite Hnil.
  - intros checks ord. apply range_clusters_fst.
Qed.

(** C6.  When the catalog lookup of a group succeeds, the endpoints the
    loop of [serviceConfig] builds are, in catalog order, one for each
    instance whose ServiceID is in the passing set and none for the others.
    The endpoint of an instance has the instance's ServiceID as ID, its
    service port as Port, as Tags the instance's own tags together with
    [dc=] followed by the datacenter of the instance, sorted, and as
    address the service address, or the node address exactly when the
    service address is the empty string.  [AddEnvTag] then runs on the
    cluster of these endpoints. *)
Theorem endpoint_construction cat name (passing : gset string) dc svcs :
  name <> "" -> size passing <> 0 -> cat name = CatalogOk svcs ->
  let built := map endpoint_of
                 (filter (fun svc => CatalogService.ServiceID svc ∈ passing) svcs) in
  (serviceConfig AddEnvTag cat name passing dc).1 =
    AddEnvTag {| Cluster.Name := name; Cluster.Endpoints := Slice built |} /\
  (forall e, e ∈ built <->
     exists svc, svc ∈ svcs /\ CatalogService.ServiceID svc ∈ passing /\
                 e = endpoint_of svc) /\
  (forall svc,
     let e := endpoint_of svc in
     Endpoint.ID e = CatalogService.ServiceID svc /\
     Endpoint.Port e = CatalogService.ServicePort svc /\
     (exists tags, Endpoint.Tags e = Slice tags /\
        tags ≡ₚ CatalogService.ServiceTags svc
                 ++ ["dc=" +:+ CatalogService.Datacenter svc] /\
        Sorted string_le tags) /\
     (CatalogService.ServiceAddress svc <> "" ->
        Endpoint.Addr e = CatalogService.ServiceAddress svc) /\
     (CatalogService.ServiceAddress svc = "" ->
        Endpoint.Addr e = CatalogService.Address svc)).
Proof.
  intros Hname Hsize Hcat built. split; [|split].
  - unfold serviceConfig. rewrite serviceConfig_guard, Hcat by done. simpl.
    by rewrite add_endpoints_spec.
  - intros e. subst built. rewrite list_elem_of_In, in_map_iff. split.
    + intros (svc & <- & Hin). apply list_elem_of_In, list_elem_of_filter in Hin.
      exists svc. tauto.
    + intros (svc & Hin & Hpass & ->). exists svc. split; [done|].
      apply list_elem_of_In, list_elem_of_filter. tauto.
  - intros svc e. subst e. unfold endpoint_of. simpl.
    split; [done|]. split; [done|]. split; [|split].
    + exists (sortStrings (CatalogService.ServiceTags svc
                             ++ ["dc=" +:+ CatalogService.Datacenter svc])).
      split; [|split; [apply sortStrings_perm|apply sortStrings_sorted]].
      by destruct (CatalogService.ServiceTags svc).
    + intros Hne. apply String.eqb_neq in Hne. by rewrite Hne.
    + intros ->. done.
Qed.
End Claims.

(** * The claims on examples *)

Lemma ex_sort_perm l : ex_sort l ≡ₚ l.
Proof. apply insertionSort_endpoints_perm. Qed.

Lemma ex_sort_sorted l : Sorted ID_le (ex_sort l).
Proof. apply insertionSort_endpoints_sorted. Qed.


(** C2 on an example: the endpoints of the last list in the other order,
    IDs distinct. *)
Lemma cluster_diff_suppression_witness :
  (forall l, ex_sort l ≡ₚ l) /\ (forall l, Sorted ID_le (ex_sort l)) /\
  changed (checkClusterChanged ex_sort [ex_cluster [ex_b; ex_a]]
             [ex_cluster [ex_a; ex_b]]) = false.
Proof.
  split; [exact ex_sort_perm|]. split; [exact ex_sort_sorted|].
  destruct (cluster_diff_suppression ex_sort ex_env passingServices_spec
              ex_sort_perm ex_sort_sorted) as (_ & _ & _ & H & _).
  apply H. constructor; [|constructor]. right. split.
  - apply perm_swap.
  - apply (bool_decide_unpack _). vm_compute. exact I.
Defined.

(** C2 as stated fails when two endpoints share an ID: the two lists hold
    the same endpoints, the sort leaves each in its order, and the
    aggregator, fed one and then the other, sends twice. *)
Lemma cluster_diff_duplicate_ID_counterexample :
  [ex_dup2; ex_dup1] ≡ₚ [ex_dup1; ex_dup2] /\
  changed (checkClusterChanged ex_sort [ex_cluster [ex_dup2; ex_dup1]]
             [ex_cluster [ex_dup1; ex_dup2]]) = true /\
  (sends <$> (snd <$> watchServices_run ex_sort "web" (agg_init 1)
                        [SelectRecv 0 [ex_cluster [ex_dup1; ex_dup2]];
                         SelectRecv 0 [ex_cluster [ex_dup2; ex_dup1]]]))
  = Some [[ex_cluster [ex_dup1; ex_dup2]]; [ex_cluster [ex_dup2; ex_dup1]]].
Proof.
  split; [apply perm_swap|]. split; vm_compute; reflexivity.
Qed.

(** C3 on an example: the passing checks come back in another order. *)
Lemma passing_set_suppression_witness :
  let st := (watchService_iter ex_sort ex_env passingServices_spec "web" ["passing"]
               "us" watch_init ex_cycle).1 in
  let pass := passingServices_spec (flat_map ServiceEntry.Checks ex_services_again)
                ["passing"] in
  contained (oldCheckers st) pass /\ contained pass (oldCheckers st) /\
  (watchService_iter ex_sort ex_env passingServices_spec "web" ["passing"] "us" st
     ex_cycle_again).2 = [EvFetch "web" "us" 7].
Proof.
  intros st pass.
  assert (H1 : contained (oldCheckers st) pass)
    by (apply checkIn_spec; vm_compute; reflexivity).
  assert (H2 : contained pass (oldCheckers st))
    by (apply checkIn_spec; vm_compute; reflexivity).
  split; [exact H1|]. split; [exact H2|].
  exact (proj1 (passing_set_suppression ex_sort ex_env passingServices_spec "web"
                  ["passing"] "us" st ex_services_again 9 (fun _ => CatalogErr)
                  ["web"] H1 H2)).
Defined.

(** C4 on an example: the cursors are the indices returned. *)
Lemma cursor_follows_registry_witness :
  cursors ex_sort ex_env passingServices_spec "web" ["passing"] "us" watch_init
    ex_cycles_backwards = returned_indices ex_cycles_backwards.
Proof.
  destruct (cursor_follows_registry ex_sort ex_env passingServices_spec "web"
              ["passing"] "us" watch_init) as (_ & _ & _ & H & _).
  apply H.
Defined.

(** C4 as stated fails when the registry returns a smaller index: the
    cursor goes from 5 back to 3. *)
Lemma cursor_backwards_counterexample :
  cursors ex_sort ex_env passingServices_spec "web" ["passing"] "us" watch_init
    ex_cycles_backwards = [5%N; 3%N] /\
  ~ Sorted N.le (cursors ex_sort ex_env passingServices_spec "web" ["passing"] "us"
                   watch_init ex_cycles_backwards).
Proof.
  assert (Hc : cursors ex_sort ex_env passingServices_spec "web" ["passing"] "us"
                 watch_init ex_cycles_backwards = [5%N; 3%N])
    by (vm_compute; reflexivity).
  split; [exact Hc|]. rewrite Hc. intros H.
  apply Sorted_inv in H as [_ H]. apply HdRel_inv in H. lia.
Qed.

(** C5 on an example: the lookup succeeds and lists no instance of the
    passing set. *)
Lemma catalog_failure_and_env_tag_witness :
  "web" <> "" /\ size ({["w1"]} : gset string) <> 0 /\
  serviceConfig ex_env (fun _ => CatalogOk [ex_instance "w2" "10.0.0.2"]) "web"
    {["w1"]} "us"
  = (ex_env (Cluster.mk "web" (Slice [])), [EvCatalog "web" "us"; EvAddEnvTag "web"]).
Proof.
  assert (H1 : "web" <> "") by discriminate.
  assert (H2 : size ({["w1"]} : gset string) <> 0) by (rewrite size_singleton; lia).
  split; [exact H1|]. split; [exact H2|].
  destruct (catalog_failure_and_env_tag ex_env
              (fun _ => CatalogOk [ex_instance "w2" "10.0.0.2"]) "web" {["w1"]} "us"
              H1 H2) as (_ & _ & H & _).
  apply (H [ex_instance "w2" "10.0.0.2"] eq_refl).
  constructor; [|constructor]. apply (bool_decide_unpack _). vm_compute. exact I.
Defined.

(** C5 as stated fails when the lookup fails: the catalog was asked, and
    [AddEnvTag] is not called on the cluster returned. *)
Lemma failed_lookup_no_env_tag_counterexample :
  let out := serviceConfig ex_env (fun _ => CatalogErr) "web" {["w1"]} "us" in
  out.1 = Cluster.mk "web" (Slice []) /\
  List.filter is_catalog out.2 = [EvCatalog "web" "us"] /\
  List.filter is_addEnvTag out.2 = [].
Proof. vm_compute. done. Qed.

(** C6 on an example: of three instances listed, two are passing. *)
Lemma endpoint_construction_witness :
  "web" <> "" /\ size ({["a"; "b"]} : gset string) <> 0 /\
  (serviceConfig ex_env (catalog ex_cycle) "web" {["a"; "b"]} "us").1
  = ex_cluster [ex_b; ex_a].
Proof.
  assert (H1 : "web" <> "") by discriminate.
  assert (H2 : size ({["a"; "b"]} : gset string) <> 0) by (vm_compute; lia).
  split; [exact H1|]. split; [exact H2|].
  rewrite (proj1 (endpoint_construction ex_env (catalog ex_cycle) "web"
                    {["a"; "b"]} "us" _ H1 H2 eq_refl)).
  vm_compute. reflexivity.
Defined.


(** C8 for the insertion sort and the environment tag of the examples. *)
Lemma diff_depends_on_cluster_order_witness :
  (forall l, ex_sort l ≡ₚ l) /\
  (exists l1 l2, l1 ≡ₚ l2 /\ l1 <> l2 /\
     changed (checkClusterChanged ex_sort l1 l2) = true /\
     changed (checkClusterChanged ex_sort l1 l1) = false /\
     changed (checkClusterChanged ex_sort l2 l2) = false) /\
  (exists cat checks dc o1 o2,
     let built1 := (servicesConfig ex_env cat checks dc o1).1 in
     let built2 := (servicesConfig ex_env cat checks dc o2).1 in
     range_order (group_checks checks ∅) o1 /\
     range_order (group_checks checks ∅) o2 /\
     built1 ≡ₚ built2 /\
     changed (checkClusterChanged ex_sort built1 built2) = true /\
     changed (checkClusterChanged ex_sort built1 built1) = false /\
     changed (checkClusterChanged ex_sort built2 built2) = false).
Proof.
  split; [exact ex_sort_perm|].
  destruct (diff_depends_on_cluster_order ex_sort ex_env ex_sort_perm)
    as (_ & H2 & _ & _ & H5).
  split; [exact H2|]. apply H5.
  intros c. unfold ex_env, AddEnvTag_spec. simpl.
  destruct (Cluster.Endpoints c); simpl; [reflexivity|apply length_map].
Defined.

(** C9 on examples: a list that is compared and found unchanged, and a
    list of three clusters that differs from the last one in the second. *)
Lemma diff_sorts_what_it_compares_witness :
  (forall l, Sorted ID_le (ex_sort l)) /\
  Forall endpoints_sorted
    (new_after (checkClusterChanged ex_sort [ex_cluster [ex_b; ex_a]]
                  [ex_cluster [ex_a; ex_b]])) /\
  (let new := [ex_cluster [ex_b; ex_a]; ex_cluster [ex_c]; ex_cluster [ex_b; ex_a]] in
   let last := [ex_cluster [ex_a; ex_b]; ex_cluster []; ex_cluster [ex_b; ex_a]] in
   length new = length last /\
   changed (checkClusterChanged ex_sort new last) = true /\
   new_after (checkClusterChanged ex_sort new last)
   = [ex_cluster [ex_a; ex_b]; ex_cluster [ex_c]; ex_cluster [ex_b; ex_a]] /\
   exists i,
     new_after (checkClusterChanged ex_sort new last)
     = map (sortCluster ex_sort) (take (S i) new) ++ drop (S i) new).
Proof.
  split; [exact ex_sort_sorted|].
  destruct (diff_sorts_what_it_compares ex_sort ex_env passingServices_spec ex_sort_sorted)
    as (_ & H & _ & _ & Hprefix & _).
  split.
  - apply (H [ex_cluster [ex_b; ex_a]] [ex_cluster [ex_a; ex_b]]).
    vm_compute. reflexivity.
  - intros new last.
    assert (Hlen : length new = length last) by reflexivity.
    assert (Hch : changed (checkClusterChanged ex_sort new last) = true)
      by (vm_compute; reflexivity).
    split; [exact Hlen|]. split; [exact Hch|]. split; [vm_compute; reflexivity|].
    destruct (Hprefix new last Hlen Hch) as (i & _ & _ & _ & _ & _ & _ & Hnew & _).
    exists i. exact Hnew.
Defined.

(** C9 as stated fails on the first list a loop sends: it is compared with
    the empty initial list, the lengths differ, and nothing is sorted.  The
    watcher sends and keeps [b; a] as the catalog listed them, and so does
    the aggregator that receives this list. *)
Lemma first_emission_unsorted_counterexample :
  let out := watchService_run ex_sort ex_env passingServices_spec "web" ["passing"]
               "us" watch_init [ex_cycle] in
  range_order (group_checks (oldCheckers out.1) ∅) (order ex_cycle) /\
  sends out.2 = [[ex_cluster [ex_b; ex_a]]] /\
  lastConfig out.1 = [ex_cluster [ex_b; ex_a]] /\
  (watchServices_run ex_sort "web" (agg_init 1)
     [SelectRecv 0 [ex_cluster [ex_b; ex_a]]])
  = Some (mkAgg [true] [[ex_cluster [ex_b; ex_a]]] [ex_cluster [ex_b; ex_a]],
          [EvSend [ex_cluster [ex_b; ex_a]]]) /\
  ~ endpoints_sorted (ex_cluster [ex_b; ex_a]).
Proof.
  split; [unfold range_order; vm_compute; reflexivity|].
  split; [vm_compute; reflexivity|]. split; [vm_compute; reflexivity|].
  split; [vm_compute; reflexivity|].
  unfold endpoints_sorted. simpl. intros H.
  apply Sorted_inv in H as [_ H]. apply HdRel_inv in H.
  unfold ID_le in H. vm_compute in H. discriminate.
Qed.

(** C10 on an example: three fetches, none finds a passing check. *)
Lemma empty_service_never_sends_witness :
  no_passing passingServices_spec ["passing"] ex_cycles_backwards /\
  sends (watchService_run ex_sort ex_env passingServices_spec "web" ["passing"] "us"
           watch_init ex_cycles_backwards).2 = [].
Proof.
  assert (H : no_passing passingServices_spec ["passing"] ex_cycles_backwards).
  { repeat constructor. }
  split; [exact H|].
  exact (proj1 (empty_service_never_sends ex_sort ex_env passingServices_spec "web"
                  ["passing"] "us" ex_cycles_backwards H)).
Defined.

(** ** The scenario of the specification, end to end *)

Example orders_end_to_end :
  let i1 := ex_orders_endpoint "us" "i1" "10.0.0.1" in
  let i2 := ex_orders_endpoint "eu" "i2" "10.0.0.2" in
  let us := ex_orders_sent "us" [ex_orders_cycle "us" "i1" "10.0.0.1" 4] in
  let eu := ex_orders_sent "eu" [mkCycle (HealthOk [] 2) (fun _ => CatalogErr) [];
                                 ex_orders_cycle "eu" "i2" "10.0.0.2" 6] in
  us = [[Cluster.mk "orders" (Slice [i1])]] /\
  eu = [[Cluster.mk "orders" (Slice [i2])]] /\
  (sends <$> (snd <$> watchServices_run ex_sort "orders" (agg_init 2)
                        (map (SelectRecv 0) us ++ map (SelectRecv 1) eu)))
  = Some [[Cluster.mk "orders" (Slice [i1])];
          [Cluster.mk "orders" (Slice [i1; i2])]].
Proof. vm_compute. done. Qed.

(** * More properties of the code *)

Lemma insertion_inner_spec rp : forall x rest,
  insertion_inner (reverse rp ++ x :: rest) (length rp)
  = Some (reverse (move_left endpoint_less x rp) ++ rest).
Proof.
  induction rp as [|y r IH]; intros x rest; simpl; [done|].
  unfold Less, Swap.
  assert (Hx : (reverse (y :: r) ++ x :: rest) !! S (length r) = Some x).
  { rewrite <- (length_reverse r).
    replace (S (length (reverse r))) with (length (reverse (y :: r)))
      by (rewrite reverse_cons, length_app; simpl; lia).
    apply list_lookup_middle. done. }
  assert (Hy : (reverse (y :: r) ++ x :: rest) !! length r = Some y).
  { rewrite reverse_cons, <- app_assoc. simpl.
    apply list_lookup_middle. by rewrite length_reverse. }
  rewrite Hx, Hy. fold (endpoint_less x y).
  destruct (endpoint_less x y) eqn:E.
  - rewrite reverse_cons, <- !app_assoc. simpl.
    assert (Hs : <[length r:=x]> (<[S (length r):=y]> (reverse r ++ y :: x :: rest))
                 = reverse r ++ x :: y :: rest).
    { rewrite <- (length_reverse r).
      rewrite (insert_app_r_alt _ _ (S _)) by lia.
      replace (S (length (reverse r)) - length (reverse r)) with 1 by lia. simpl.
      rewrite (insert_app_r_alt _ _ (length (reverse r))) by lia.
      by rewrite Nat.sub_diag. }
    rewrite Hs, (IH x (y :: rest)), reverse_cons, <- app_assoc. done.
  - by rewrite !reverse_cons, <- !app_assoc.
Qed.

Lemma insertion_outer_spec todo : forall rp,
  insertion_outer (reverse rp ++ todo) (length rp) (length todo)
  = Some (reverse (fold_left (fun rprefix x => move_left endpoint_less x rprefix) todo rp)).
Proof.
  induction todo as [|x todo IH]; intros rp; simpl.
  - by rewrite app_nil_r.
  - rewrite insertion_inner_spec.
    assert (Hlen : S (length rp) = length (move_left endpoint_less x rp)).
    { by rewrite (Permutation_length (move_left_perm endpoint_less x rp)). }
    rewrite Hlen. apply IH.
Qed.

(** X1.  Insertion sort of package sort, run on an endpoint slice through
    its methods [Len], [Less] and [Swap], never indexes out of range; it
    leaves the slice as the list function [insertionSort] does, in
    non-decreasing order of ID and with the endpoints it had. *)
Theorem sort_through_methods s :
  insertionSort_methods s = Some (insertionSort endpoint_less s) /\
  Sorted ID_le (insertionSort endpoint_less s) /\
  insertionSort endpoint_less s ≡ₚ s.
Proof.
  split; [|split; [apply insertionSort_endpoints_sorted|apply insertionSort_endpoints_perm]].
  unfold insertionSort_methods, insertionSort, Len.
  destruct s as [|x todo]; simpl; [done|].
  rewrite Nat.sub_0_r. apply (insertion_outer_spec todo [x]).
Qed.

(** ** The list of datacenters *)

Lemma Split_comma_not_nil s : Split_comma s <> [].
Proof.
  destruct s as [|c rest]; simpl; [done|].
  destruct (Ascii.eqb c ","); [done|]. by destruct (Split_comma rest).
Qed.

Lemma Split_comma_length s : length (Split_comma s) = S (commas s).
Proof.
  induction s as [|c rest IH]; simpl; [done|].
  destruct (Ascii.eqb c ","); simpl; [by rewrite IH|].
  pose proof (Split_comma_not_nil rest).
  destruct (Split_comma rest); [done|]. simpl in *. lia.
Qed.

Lemma Split_comma_concat s : String.concat "," (Split_comma s) = s.
Proof.
  induction s as [|c rest IH]; simpl; [done|].
  pose proof (Split_comma_not_nil rest) as Hne.
  destruct (Ascii.eqb c ",") eqn:E.
  - apply Ascii.eqb_eq in E as ->.
    destruct (Split_comma rest) as [|p ps]; [done|]. simpl in *.
    by rewrite IH.
  - destruct (Split_comma rest) as [|p ps]; [done|].
    destruct ps; simpl in *; by rewrite <- IH.
Qed.

Lemma Split_comma_pieces s :
  Forall (fun piece => commas piece = 0) (Split_comma s).
Proof.
  induction s as [|c rest IH]; simpl; [by repeat constructor|].
  destruct (Ascii.eqb c ",") eqn:E; [by constructor|].
  destruct (Split_comma rest) as [|p ps]; simpl.
  - constructor; [|done]. simpl. by rewrite E.
  - inv IH. constructor; [|done]. simpl. by rewrite E.
Qed.

Lemma Split_comma_no_comma q : commas q = 0 -> Split_comma q = [q].
Proof.
  induction q as [|c q IH]; simpl; [done|].
  destruct (Ascii.eqb c ","); [lia|]. intros Hq. by rewrite IH by lia.
Qed.

Lemma Split_comma_first q tail :
  commas q = 0 -> Split_comma (q +:+ String "," tail) = q :: Split_comma tail.
Proof.
  induction q as [|c q IH]; intros Hq.
  - done.
  - change (String c q +:+ String "," tail) with (String c (q +:+ String "," tail)).
    simpl in *. destruct (Ascii.eqb c ","); [lia|]. by rewrite IH by lia.
Qed.

(** The pieces determine the split: joining comma-free pieces and
    splitting again gives them back. *)
Lemma Split_comma_of_concat pieces :
  pieces <> [] -> Forall (fun piece => commas piece = 0) pieces ->
  Split_comma (String.concat "," pieces) = pieces.
Proof.
  induction pieces as [|p ps IH]; [done|]. intros _ HF. inv HF.
  destruct ps as [|p' ps'].
  - simpl. by apply Split_comma_no_comma.
  - change (String.concat "," (p :: p' :: ps'))
      with (p +:+ String "," (String.concat "," (p' :: ps'))).
    rewrite Split_comma_first by done. by rewrite IH.
Qed.

(** X2.  [watchServices] always has at least one datacenter: one more
    than the trimmed [dc] has commas, the empty string giving the single
    name [""].  No name has a comma, and the names joined by commas are
    the trimmed string again, so nothing else is trimmed or dropped.
    Before the loop every datacenter has a case with its channel and an
    empty slot, and there is no last result. *)
Theorem datacenter_list TrimSpace dc :
  let dcs := datacenters TrimSpace dc in
  let st := watchServices_init TrimSpace dc in
  length dcs = S (commas (TrimSpace dc)) /\
  String.concat "," dcs = TrimSpace dc /\
  Forall (fun name => commas name = 0) dcs /\
  (TrimSpace dc = "" -> dcs = [""]) /\
  agg_wf (length dcs) st /\
  (forall i, i < length dcs -> cases st !! i = Some true /\ lastConfigs st !! i = Some []) /\
  lastResult st = [].
Proof.
  intros dcs st. subst dcs st. unfold datacenters, watchServices_init, agg_init.
  split; [apply Split_comma_length|]. split; [apply Split_comma_concat|].
  split; [apply Split_comma_pieces|]. split; [by intros ->|].
  split; [|split; [|done]].
  - unfold agg_wf. simpl. rewrite !length_replicate. repeat split. lia.
  - intros i Hi. simpl. split; by apply lookup_replicate_2.
Qed.

Section Aggregator.
Variable sortEndpoints : list Endpoint.t -> list Endpoint.t.
Hypothesis sort_perm : forall l, sortEndpoints l ≡ₚ l.

Lemma touched_length l l' :
  Forall2 (touched sortEndpoints) l l' -> length l' = length l.
Proof. intros H. symmetry. by eapply Forall2_length. Qed.

Lemma watchServices_iter_wf service n st sel :
  agg_wf n st -> chosen_of sel < n ->
  exists st' tr,
    watchServices_iter sortEndpoints service st sel = Some (st', tr) /\
    agg_wf n st' /\
    length tr <= (if is_recv sel then 1 else 0).
Proof.
  intros (Hc & Hs & Hr) Hlt. destruct sel as [chosen|chosen value]; simpl in *.
  - rewrite Hc. apply Nat.ltb_lt in Hlt. rewrite Hlt.
    eexists _, _. split; [reflexivity|]. split; [|simpl; lia].
    repeat split; simpl; rewrite ?length_insert; auto.
  - destruct (watchServices_iter_diff sortEndpoints service st chosen value)
      as (st' & tr & H1 & H2 & H3 & H4 & H5 & H6); [lia|].
    exists st', tr. split; [done|]. split.
    + split; [by rewrite H5|]. split; [by rewrite H4, length_insert|].
      rewrite H3, (touched_length _ _ H6). simpl. lia.
    + simpl in H1. rewrite Hs in H1. apply Nat.ltb_lt in Hlt. rewrite Hlt in H1.
      injection H1 as <- <-. destruct (changed _); simpl; lia.
Qed.

(** X3.  From a state with one case and one slot for each of [n]
    datacenters, the loop of [watchServices] handles every sequence of
    results that name a case without an index out of range; it keeps one
    case and one slot per datacenter and at most one cluster as last
    result, and it sends at most one list per value received, none for a
    closed channel. *)
Theorem aggregator_never_panics service n sels : forall st,
  agg_wf n st ->
  Forall (fun sel => chosen_of sel < n) sels ->
  exists st' tr,
    watchServices_run sortEndpoints service st sels = Some (st', tr) /\
    agg_wf n st' /\
    length (sends tr) <= length (List.filter is_recv sels).
Proof.
  induction sels as [|sel sels IH]; intros st Hwf HF; simpl.
  - by exists st, [].
  - apply Forall_cons in HF as [Hsel HF].
    destruct (watchServices_iter_wf service n st sel) as (st1 & tr1 & E1 & Hwf1 & Hl1);
      [done..|].
    destruct (IH st1 Hwf1) as (st2 & tr2 & E2 & Hwf2 & Hl2); [done|].
    rewrite E1, E2. exists st2, (tr1 ++ tr2). split; [done|]. split; [done|].
    rewrite sends_app, length_app.
    assert (length (sends tr1) <= length tr1).
    { clear. induction tr1 as [|[] tr1 IH]; simpl; lia. }
    destruct (is_recv sel); simpl; lia.
Qed.

(** X4.  While the aggregator has no last result, a value it receives is
    always followed by a send: the merged list is sent and kept as it was
    built, whatever its endpoints, none included. *)
Theorem first_value_always_sent service st chosen value :
  lastResult st = [] ->
  chosen < length (lastConfigs st) ->
  let result := merged service (<[chosen := value]> (lastConfigs st)) in
  watchServices_iter sortEndpoints service st (SelectRecv chosen value)
  = Some (mkAgg (cases st) (<[chosen := value]> (lastConfigs st)) result,
          [EvSend result]).
Proof.
  intros Hlast Hlt result. unfold watchServices_iter.
  apply Nat.ltb_lt in Hlt. rewrite Hlt. fold result. by rewrite Hlast.
Qed.

Lemma touched_perm c c' :
  touched sortEndpoints c c' ->
  Cluster.Name c' = Cluster.Name c /\
  elems (Cluster.Endpoints c') ≡ₚ elems (Cluster.Endpoints c).
Proof.
  intros [->| ->]; [done|]. split; [done|]. simpl.
  destruct (Cluster.Endpoints c); simpl; [done|apply sort_perm].
Qed.

(** X5.  For any sort that permutes: after a value is received the last
    result is one cluster, named after the service, whose endpoints are, up
    to their order, the endpoints of the first cluster of every slot; and
    what that iteration sends is nothing or this last result. *)
Theorem sent_cluster_is_the_merge service st chosen value st' tr :
  watchServices_iter sortEndpoints service st (SelectRecv chosen value) = Some (st', tr) ->
  let all := concat (map slot_endpoints (lastConfigs st')) in
  (exists c, lastResult st' = [c] /\ Cluster.Name c = service /\
             elems (Cluster.Endpoints c) ≡ₚ all) /\
  (sends tr = [] \/ sends tr = [lastResult st']).
Proof.
  intros Hiter all.
  assert (Hlt : chosen < length (lastConfigs st)).
  { simpl in Hiter. destruct (_ <? _)%nat eqn:E; [|done]. by apply Nat.ltb_lt. }
  destruct (watchServices_iter_diff sortEndpoints service st chosen value Hlt)
    as (st1 & tr1 & H1 & H2 & H3 & H4 & _ & H6).
  rewrite Hiter in H1. injection H1 as <- <-.
  split.
  - unfold merged in H6. inv H6.
    match goal with H : Forall2 _ [] _ |- _ => inv H end.
    match goal with H : touched _ _ _ |- _ => apply touched_perm in H as [Hn Hp] end.
    eexists. split; [by rewrite H3|]. split; [done|].
    rewrite Hp. simpl. rewrite merge_endpoints_elems, concat_contributing.
    subst all. by rewrite H4.
  - rewrite H2, H3. destruct (changed _); auto.
Qed.

Lemma map_list_insert {A B} (f : A -> B) (l : list A) i x :
  map f (<[i := x]> l) = <[i := f x]> (map f l).
Proof.
  revert i. induction l as [|a l IH]; intros [|i]; simpl; try done.
  by rewrite IH.
Qed.

Lemma contributes_slot_endpoints slot :
  contributes slot = negb (length (slot_endpoints slot) =? 0)%nat.
Proof. by destruct slot. Qed.

Lemma merge_endpoints_ext slots1 : forall slots2 eps,
  map slot_endpoints slots1 = map slot_endpoints slots2 ->
  merge_endpoints slots1 eps = merge_endpoints slots2 eps.
Proof.
  induction slots1 as [|s1 slots1 IH]; intros [|s2 slots2] eps Heq;
    simpl in *; try done.
  injection Heq as H1 H2. rewrite !contributes_slot_endpoints, H1.
  destruct (negb _); by apply IH.
Qed.

(** X6.  Of a value received from a datacenter the aggregator reads the
    endpoints of the first cluster only: two values that agree on them,
    whatever the names of their clusters and whatever clusters follow the
    first, lead to the same emission and the same last result. *)
Theorem only_first_cluster_counts service st chosen v v' :
  slot_endpoints v = slot_endpoints v' ->
  chosen < length (lastConfigs st) ->
  exists st1 st2 tr,
    watchServices_iter sortEndpoints service st (SelectRecv chosen v) = Some (st1, tr) /\
    watchServices_iter sortEndpoints service st (SelectRecv chosen v') = Some (st2, tr) /\
    lastResult st1 = lastResult st2.
Proof.
  intros Heq Hlt. unfold watchServices_iter.
  apply Nat.ltb_lt in Hlt. rewrite Hlt.
  assert (Hm : merged service (<[chosen:=v]> (lastConfigs st))
               = merged service (<[chosen:=v']> (lastConfigs st))).
  { unfold merged. f_equal. f_equal. apply merge_endpoints_ext.
    rewrite !map_list_insert. by rewrite Heq. }
  rewrite Hm. by eexists _, _, _.
Qed.

(** X7.  After any run of the aggregator, the slot of a datacenter holds
    the last value received from it, or what it held before when none was
    received; a closed channel leaves the slot as it is, so the endpoints
    last received from a closed datacenter stay in the merge. *)
Theorem slot_holds_last_value service sels : forall st st' tr i,
  watchServices_run sortEndpoints service st sels = Some (st', tr) ->
  lastConfigs st' !! i =
  match last_value i sels with
  | Some v => Some v
  | None => lastConfigs st !! i
  end.
Proof.
  induction sels as [|sel sels IH]; intros st st' tr i; simpl.
  - by intros [= <- <-].
  - destruct (watchServices_iter _ _ _ _) as [[st1 tr1]|] eqn:E1; [|done].
    destruct (watchServices_run _ _ _ _) as [[st2 tr2]|] eqn:E2; [|done].
    intros [= <- <-]. rewrite (IH _ _ _ i E2).
    destruct (last_value i sels); [done|].
    destruct sel as [chosen|chosen value]; simpl in E1;
      destruct (_ <? _)%nat eqn:Hlt; try done; injection E1 as <- <-; simpl; [done|].
    apply Nat.ltb_lt in Hlt. destruct (decide (chosen = i)) as [->|Hne].
    + by rewrite list_lookup_insert_eq.
    + by rewrite list_lookup_insert_ne.
Qed.
End Aggregator.

(** ** checkCheckersEqual as a comparison of sets *)

Lemma same_check_eq j h : same_check j h <-> j = h.
Proof.
  split; [|intros ->; by repeat split].
  destruct j, h. unfold same_check. simpl. intros (-> & -> & -> & -> & -> & -> & ->).
  done.
Qed.

Lemma contained_subset h1 h2 : contained h1 h2 <-> (forall h, h ∈ h1 -> h ∈ h2).
Proof.
  unfold contained. split.
  - intros H h Hh. destruct (H h Hh) as (j & Hj & Hs).
    apply same_check_eq in Hs. by subst.
  - intros H h Hh. exists h. split; [by apply H|by apply same_check_eq].
Qed.

(** X8.  [checkCheckersEqual] compares the two lists as sets of records
    (a record being the seven fields it reads): it is true exactly when
    each record of one list occurs in the other.  So it is reflexive,
    symmetric and transitive, and neither the order of the records nor the
    number of times a record occurs matters. *)
Theorem checkers_compared_as_sets old new :
  (checkCheckersEqual old new = true <-> forall h, h ∈ old <-> h ∈ new) /\
  checkCheckersEqual old old = true /\
  checkCheckersEqual old new = checkCheckersEqual new old /\
  (forall other, checkCheckersEqual old new = true ->
     checkCheckersEqual new other = true -> checkCheckersEqual old other = true) /\
  (forall old', old' ≡ₚ old -> checkCheckersEqual old' new = checkCheckersEqual old new) /\
  checkCheckersEqual (old ++ old) new = checkCheckersEqual old new.
Proof.
  assert (Hset : forall a b,
            checkCheckersEqual a b = true <-> forall h, h ∈ a <-> h ∈ b).
  { intros a b. rewrite checkCheckersEqual_spec, !contained_subset. split.
    - intros [H1 H2] h. split; auto.
    - intros H. split; intros h; apply H. }
  assert (Hext : forall a a' b, (forall h, h ∈ a' <-> h ∈ a) ->
            checkCheckersEqual a' b = checkCheckersEqual a b).
  { intros a a' b Ha.
    destruct (checkCheckersEqual a b) eqn:E.
    - apply Hset. rewrite Hset in E. intros h. by rewrite Ha.
    - destruct (checkCheckersEqual a' b) eqn:E'; [|done].
      rewrite <- E. symmetry. apply Hset. rewrite Hset in E'.
      intros h. by rewrite <- Ha. }
  split; [apply Hset|]. split; [by apply Hset|]. split; [|split; [|split]].
  - unfold checkCheckersEqual. apply andb_comm.
  - intros other H1 H2. apply Hset. rewrite Hset in H1, H2.
    intros h. by rewrite H1.
  - intros old' Hp. apply Hext. intros h. by rewrite Hp.
  - apply Hext. intros h. rewrite elem_of_app. tauto.
Qed.

(** ** What the cluster diff looks at *)

Lemma lookup_map {A B} (f : A -> B) (l : list A) i :
  map f l !! i = f <$> (l !! i).
Proof. revert i. induction l as [|a l IH]; intros [|i]; simpl; try done. Qed.

Section Diff.
Variable sortEndpoints : list Endpoint.t -> list Endpoint.t.

Lemma changed_ext new new' last last' :
  map Cluster.Endpoints new = map Cluster.Endpoints new' ->
  map Cluster.Endpoints last = map Cluster.Endpoints last' ->
  changed (checkClusterChanged sortEndpoints new last) = false ->
  changed (checkClusterChanged sortEndpoints new' last') = false.
Proof.
  intros Hn Hl H. apply checkClusterChanged_unchanged in H as [Hlen H].
  apply checkClusterChanged_unchanged. split.
  - apply (f_equal length) in Hn, Hl. rewrite !length_map in Hn, Hl. lia.
  - intros i c1' c2' H1 H2.
    assert (exists c1, new !! i = Some c1 /\ Cluster.Endpoints c1 = Cluster.Endpoints c1') as (c1 & Hc1 & E1).
    { apply (f_equal (fun l => l !! i)) in Hn.
      rewrite !lookup_map, H1 in Hn.
      destruct (new !! i) as [c1|]; [|done]. simpl in Hn. injection Hn as Hn. eauto. }
    assert (exists c2, last !! i = Some c2 /\ Cluster.Endpoints c2 = Cluster.Endpoints c2') as (c2 & Hc2 & E2).
    { apply (f_equal (fun l => l !! i)) in Hl.
      rewrite !lookup_map, H2 in Hl.
      destruct (last !! i) as [c2|]; [|done]. simpl in Hl. injection Hl as Hl. eauto. }
    specialize (H i c1 c2 Hc1 Hc2). unfold sortedEndpoints in *. by rewrite <- E1, <- E2.
Qed.

(** X9.  The result of [checkClusterChanged] depends on the endpoint
    slices of the clusters only, position by position: the names of the
    clusters play no part, so a list whose clusters are renamed is reported
    as unchanged.  The result is the same when the two arguments are
    exchanged. *)
Theorem diff_reads_endpoints_only new new' last last' :
  map Cluster.Endpoints new = map Cluster.Endpoints new' ->
  map Cluster.Endpoints last = map Cluster.Endpoints last' ->
  changed (checkClusterChanged sortEndpoints new last)
  = changed (checkClusterChanged sortEndpoints new' last') /\
  changed (checkClusterChanged sortEndpoints new last)
  = changed (checkClusterChanged sortEndpoints last new).
Proof.
  intros Hn Hl. split.
  - destruct (changed (checkClusterChanged sortEndpoints new last)) eqn:E;
      destruct (changed (checkClusterChanged sortEndpoints new' last')) eqn:E'; try done.
    + apply (changed_ext new' new last' last) in E'; congruence.
    + apply (changed_ext new new' last last') in E; congruence.
  - assert (Hsym : forall a b,
              changed (checkClusterChanged sortEndpoints a b) = false ->
              changed (checkClusterChanged sortEndpoints b a) = false).
    { intros a b H. apply checkClusterChanged_unchanged in H as [Hlen H].
      apply checkClusterChanged_unchanged. split; [done|].
      intros i c1 c2 H1 H2. symmetry. by apply (H i). }
    destruct (changed (checkClusterChanged sortEndpoints new last)) eqn:E;
      destruct (changed (checkClusterChanged sortEndpoints last new)) eqn:E'; try done.
    + apply Hsym in E'. congruence.
    + apply Hsym in E. congruence.
Qed.

(** X10.  When [checkClusterChanged] reports a change between two lists
    of one length, there is a first position at which the sorted endpoints
    differ; in both lists the clusters up to and including that position
    have been sorted in place and those after it are as they were. *)
Theorem change_sorts_a_prefix new last :
  length new = length last ->
  changed (checkClusterChanged sortEndpoints new last) = true ->
  exists i c1 c2,
    new !! i = Some c1 /\ last !! i = Some c2 /\
    sortedEndpoints sortEndpoints c1 <> sortedEndpoints sortEndpoints c2 /\
    (forall k d1 d2, k < i -> new !! k = Some d1 -> last !! k = Some d2 ->
       sortedEndpoints sortEndpoints d1 = sortedEndpoints sortEndpoints d2) /\
    new_after (checkClusterChanged sortEndpoints new last)
    = map (sortCluster sortEndpoints) (take (S i) new) ++ drop (S i) new /\
    last_after (checkClusterChanged sortEndpoints new last)
    = map (sortCluster sortEndpoints) (take (S i) last) ++ drop (S i) last.
Proof. apply checkClusterChanged_first_difference. Qed.
End Diff.

(** ** The grouping of servicesConfig *)

Lemma group_checks_dom checks : forall (m : gmap string (gset string)) name,
  is_Some (group_checks checks m !! name) <->
  is_Some (m !! name) \/ exists c, c ∈ checks /\ HealthCheck.ServiceName c = name.
Proof.
  induction checks as [|c checks IH]; intros m name; simpl.
  - split; [by left|]. intros [H|(c & Hc & _)]; [done|by inv Hc].
  - rewrite IH. clear IH.
    set (n := HealthCheck.ServiceName c).
    set (m' := match m !! n with Some _ => m | None => <[n:=∅]> m end).
    destruct (decide (n = name)) as [<-|Hne].
    + rewrite lookup_insert_eq. split.
      * intros _. right. exists c. split; [by left|done].
      * intros _. left. eauto.
    + rewrite lookup_insert_ne by done.
      assert (Hm' : m' !! name = m !! name).
      { subst m'. destruct (m !! n); [done|]. by rewrite lookup_insert_ne. }
      rewrite Hm'. split.
      * intros [H|(c' & Hc' & H1)]; [by left|].
        right. exists c'. split; [by right|done].
      * intros [H|(c' & Hc' & H1)]; [by left|].
        inv Hc'; try done. right. by exists c'.
Qed.

Lemma group_checks_names checks name :
  is_Some (group_checks checks ∅ !! name) <->
  exists c, c ∈ checks /\ HealthCheck.ServiceName c = name.
Proof.
  rewrite group_checks_dom, lookup_empty.
  split; [intros [[? ?]|H]; done|by right].
Qed.

Lemma group_checks_ids checks name id :
  id ∈ (group_checks checks ∅ !!! name : gset string) <->
  exists c, c ∈ checks /\ HealthCheck.ServiceName c = name /\
            HealthCheck.ServiceID c = id.
Proof.
  rewrite group_checks_passing, lookup_total_empty.
  split; [intros [H|H]; [by apply not_elem_of_empty in H|done]|by right].
Qed.

Lemma group_checks_nonempty checks name :
  is_Some (group_checks checks ∅ !! name) ->
  size (group_checks checks ∅ !!! name : gset string) <> 0.
Proof.
  intros Hin. apply group_checks_names in Hin as (c & Hc & Hn).
  assert (H : HealthCheck.ServiceID c ∈ (group_checks checks ∅ !!! name : gset string)).
  { apply group_checks_ids. by exists c. }
  intros Hsz. apply size_empty_iff, leibniz_equiv in Hsz. rewrite Hsz in H.
  by apply not_elem_of_empty in H.
Qed.

Lemma group_checks_perm checks checks' :
  checks' ≡ₚ checks -> group_checks checks' ∅ = group_checks checks ∅.
Proof.
  intros Hp. apply map_eq. intros name.
  assert (Hsome : is_Some (group_checks checks' ∅ !! name)
                  <-> is_Some (group_checks checks ∅ !! name)).
  { rewrite !group_checks_names. by setoid_rewrite Hp. }
  assert (Htot : (group_checks checks' ∅ !!! name : gset string)
                 = group_checks checks ∅ !!! name).
  { apply set_eq. intros id. rewrite !group_checks_ids. by setoid_rewrite Hp. }
  unfold lookup_total, map_lookup_total in Htot.
  destruct (group_checks checks' ∅ !! name) as [s1|] eqn:E1;
    destruct (group_checks checks ∅ !! name) as [s2|] eqn:E2; simpl in *.
  - by rewrite Htot.
  - destruct Hsome as [Hs _]. destruct Hs as [? ?]; [eauto|done].
  - destruct Hsome as [_ Hs]. destruct Hs as [? ?]; [eauto|done].
  - done.
Qed.

Lemma range_order_names (m : gmap string (gset string)) ord :
  range_order m ord -> NoDup ord /\ forall name, name ∈ ord <-> is_Some (m !! name).
Proof.
  unfold range_order. intros Hord. split.
  - rewrite Hord. apply NoDup_elements.
  - intros name. by rewrite Hord, elem_of_elements, elem_of_dom.
Qed.

(** X11.  The map that [servicesConfig] builds has as keys exactly the
    service names of the checks, the empty name included, and maps a name
    to exactly the service IDs of the checks of that name, so never to an
    empty set; it does not depend on the order of the checks. *)
Theorem grouping_of_checks checks :
  let m := group_checks checks ∅ in
  (forall name, is_Some (m !! name) <->
     exists c, c ∈ checks /\ HealthCheck.ServiceName c = name) /\
  (forall name id, id ∈ (m !!! name : gset string) <->
     exists c, c ∈ checks /\ HealthCheck.ServiceName c = name /\
               HealthCheck.ServiceID c = id) /\
  (forall name, is_Some (m !! name) -> size (m !!! name : gset string) <> 0) /\
  (forall checks', checks' ≡ₚ checks -> group_checks checks' ∅ = m).
Proof.
  intros m. split; [apply group_checks_names|]. split; [apply group_checks_ids|].
  split; [apply group_checks_nonempty|]. intros checks'. apply group_checks_perm.
Qed.

Section Services.
Variable AddEnvTag : Cluster.t -> Cluster.t.

Lemma serviceConfig_catalog cat name (passing : gset string) dc :
  size passing <> 0 ->
  List.filter is_catalog (serviceConfig AddEnvTag cat name passing dc).2 =
  if String.eqb name "" then [] else [EvCatalog name dc].
Proof.
  intros Hsz. unfold serviceConfig.
  destruct (String.eqb name "") eqn:E; simpl; [done|].
  apply Nat.eqb_neq in Hsz. rewrite Hsz. by destruct (cat name).
Qed.

Lemma range_clusters_catalog cat (m : gmap string (gset string)) dc ord :
  (forall name, name ∈ ord -> size (m !!! name : gset string) <> 0) ->
  List.filter is_catalog (range_clusters AddEnvTag cat m dc ord).2 =
  map (fun name => EvCatalog name dc)
      (List.filter (fun name => negb (String.eqb name "")) ord).
Proof.
  induction ord as [|name ord IH]; intros Hsz; simpl; [done|].
  pose proof (serviceConfig_catalog cat name (m !!! name) dc) as Hc.
  destruct (serviceConfig _ _ _ _ _) as [c tr].
  destruct (range_clusters _ _ _ _ _) as [cs tr']. simpl in *.
  rewrite List.filter_app, Hc, IH.
  - by destruct (String.eqb name "").
  - intros n Hn. apply Hsz. by right.
  - apply Hsz. by left.
Qed.

Lemma servicesConfig_length cat checks dc ord :
  length (servicesConfig AddEnvTag cat checks dc ord).1 = length ord.
Proof. unfold servicesConfig. by rewrite range_clusters_fst, length_map. Qed.

(** X12.  [servicesConfig] returns one cluster for each distinct service
    name of the checks, and asks the catalog exactly once for each distinct
    name except the empty one, in the order in which the runtime ranges
    over the map. *)
Theorem one_lookup_per_service cat checks dc ord :
  range_order (group_checks checks ∅) ord ->
  let out := servicesConfig AddEnvTag cat checks dc ord in
  List.filter is_catalog out.2 =
    map (fun name => EvCatalog name dc)
        (List.filter (fun name => negb (String.eqb name "")) ord) /\
  length out.1 = length ord /\
  NoDup ord /\
  (forall name, name ∈ ord <->
     exists c, c ∈ checks /\ HealthCheck.ServiceName c = name).
Proof.
  intros Hord out. destruct (range_order_names _ _ Hord) as [Hnd Hin].
  split; [|split; [|split]].
  - subst out. unfold servicesConfig. apply range_clusters_catalog.
    intros name Hn. apply group_checks_nonempty. by apply Hin.
  - apply servicesConfig_length.
  - done.
  - intros name. by rewrite Hin, group_checks_names.
Qed.

(** X13.  For a named group whose catalog lookup succeeds, an instance
    listed by the catalog becomes an endpoint exactly when some passing
    check of that service name carries its service ID; the node of the
    check and of the instance plays no part. *)
Theorem endpoints_keyed_by_service_ID cat checks name dc svcs :
  name <> "" ->
  (exists c, c ∈ checks /\ HealthCheck.ServiceName c = name) ->
  cat name = CatalogOk svcs ->
  exists built,
    (serviceConfig AddEnvTag cat name (group_checks checks ∅ !!! name) dc).1 =
      AddEnvTag {| Cluster.Name := name; Cluster.Endpoints := Slice built |} /\
    forall e, e ∈ built <->
      exists svc, svc ∈ svcs /\ e = endpoint_of svc /\
        exists c, c ∈ checks /\ HealthCheck.ServiceName c = name /\
                  HealthCheck.ServiceID c = CatalogService.ServiceID svc.
Proof.
  intros Hname Hex Hcat.
  pose proof (group_checks_ids checks) as Hids.
  eexists. split.
  - unfold serviceConfig. rewrite serviceConfig_guard, Hcat; [|done|].
    + simpl. by rewrite add_endpoints_spec.
    + apply group_checks_nonempty. by apply group_checks_names.
  - intros e. simpl. rewrite list_elem_of_In, in_map_iff. split.
    + intros (svc & <- & Hin). apply list_elem_of_In, list_elem_of_filter in Hin as [Hp Hin].
      exists svc. split; [done|]. split; [done|]. by apply Hids.
    + intros (svc & Hin & -> & Hc). exists svc. split; [done|].
      apply list_elem_of_In, list_elem_of_filter. split; [|done]. by apply Hids.
Qed.
End Services.

Section WatcherRuns.
Variable sortEndpoints : list Endpoint.t -> list Endpoint.t.
Variable AddEnvTag : Cluster.t -> Cluster.t.
Variable passingServices : list HealthCheck.t -> list string -> list HealthCheck.t.
Hypothesis sort_perm : forall l, sortEndpoints l ≡ₚ l.

Lemma range_clusters_no_sleep cat m dc ord :
  List.filter is_sleep (range_clusters AddEnvTag cat m dc ord).2 = [].
Proof.
  induction ord as [|name ord IH]; simpl; [done|].
  assert (Hs : List.filter is_sleep
                 (serviceConfig AddEnvTag cat name (m !!! name) dc).2 = []).
  { unfold serviceConfig. destruct (_ || _); [done|]. by destruct (cat name). }
  destruct (serviceConfig _ _ _ _ _) as [c tr].
  destruct (range_clusters _ _ _ _ _) as [cs tr']. simpl in *.
  by rewrite List.filter_app, Hs, IH.
Qed.

Lemma watchService_iter_ok_no_sleep service status dc st cy :
  fetch_ok cy = true ->
  List.filter is_sleep
    (watchService_iter sortEndpoints AddEnvTag passingServices service status dc st cy).2
  = [].
Proof.
  unfold fetch_ok, watchService_iter. destruct (health cy); [done|]. intros _.
  destruct (checkCheckersEqual _ _); [done|].
  pose proof (range_clusters_no_sleep (catalog cy)
    (group_checks (passingServices (flat_map ServiceEntry.Checks services) status) ∅)
    dc (order cy)) as Hs.
  unfold servicesConfig. destruct (range_clusters _ _ _ _ _) as [cs tr]. simpl in *.
  rewrite List.filter_app, Hs. by destruct (changed _).
Qed.

(** X14.  Failed fetches change nothing but time: a run of [watchService]
    ends in the same state, sends the same lists and makes the same catalog
    queries as the run without its failed fetches, and it sleeps exactly
    once for each failed fetch and never after a successful one. *)
Theorem failed_fetches_are_transparent service status dc cycles : forall st,
  let out := watchService_run sortEndpoints AddEnvTag passingServices service status
               dc st cycles in
  let out' := watchService_run sortEndpoints AddEnvTag passingServices service status
                dc st (List.filter fetch_ok cycles) in
  out.1 = out'.1 /\
  sends out.2 = sends out'.2 /\
  List.filter is_catalog out.2 = List.filter is_catalog out'.2 /\
  length (List.filter is_sleep out.2)
  = length cycles - length (List.filter fetch_ok cycles).
Proof.
  induction cycles as [|cy cycles IH]; intros st; simpl; [done|].
  destruct (fetch_ok cy) eqn:Hok; simpl.
  - pose proof (watchService_iter_ok_no_sleep service status dc st cy Hok) as Hs.
    destruct (watchService_iter _ _ _ _ _ _ st cy) as [st1 tr1]. simpl in Hs.
    specialize (IH st1). simpl in IH.
    destruct (watchService_run _ _ _ _ _ _ st1 cycles) as [st2 tr2].
    destruct (watchService_run _ _ _ _ _ _ st1 (List.filter fetch_ok cycles))
      as [st2' tr2'].
    simpl in *. destruct IH as (-> & H2 & H3 & H4).
    split; [done|]. split; [by rewrite !sends_app, H2|].
    split; [by rewrite !List.filter_app, H3|].
    rewrite List.filter_app, Hs. simpl. by rewrite H4.
  - assert (Hit : watchService_iter sortEndpoints AddEnvTag passingServices service
                    status dc st cy
                  = (st, [EvFetch service dc (lastIndex st); EvSleep])).
    { unfold fetch_ok in Hok. unfold watchService_iter. by destruct (health cy). }
    rewrite Hit. specialize (IH st). simpl in IH.
    destruct (watchService_run _ _ _ _ _ _ st cycles) as [st2 tr2].
    destruct (watchService_run _ _ _ _ _ _ st (List.filter fetch_ok cycles))
      as [st2' tr2'].
    simpl in *. destruct IH as (-> & H2 & H3 & H4).
    rewrite H4. split; [done|]. split; [done|]. split; [done|].
    pose proof (List.filter_length_le fetch_ok cycles). lia.
Qed.

Lemma range_clusters_outage m dc ord cat :
  (forall name, name ∈ ord -> cat name = CatalogErr) ->
  (range_clusters AddEnvTag cat m dc ord).1
  = map (fun name => Cluster.mk name (Slice [])) ord /\
  List.filter is_addEnvTag (range_clusters AddEnvTag cat m dc ord).2 = [].
Proof.
  induction ord as [|name ord IH]; intros Hcat; simpl; [done|].
  assert (Hs : serviceConfig AddEnvTag cat name (m !!! name) dc
               = (Cluster.mk name (Slice []), [])
               \/ serviceConfig AddEnvTag cat name (m !!! name) dc
               = (Cluster.mk name (Slice []), [EvCatalog name dc])).
  { unfold serviceConfig. destruct (_ || _); [by left|].
    rewrite Hcat by (by left). by right. }
  destruct IH as [IH1 IH2]; [intros n Hn; apply Hcat; by right|].
  destruct (range_clusters _ _ _ _ _) as [cs tr']. simpl in *.
  destruct Hs as [-> | ->]; simpl; by rewrite IH1, IH2.
Qed.

Lemma touched_no_endpoints l l' :
  Forall (fun c => elems (Cluster.Endpoints c) = []) l ->
  Forall2 (touched sortEndpoints) l l' ->
  Forall (fun c => elems (Cluster.Endpoints c) = []) l'.
Proof.
  intros HF HT. induction HT as [|c c' l l' Ht HT IH]; [done|].
  inv HF. constructor; [|by apply IH].
  destruct Ht as [-> | ->]; [done|]. simpl.
  destruct (Cluster.Endpoints c) as [|eps]; simpl in *; [done|]. subst eps.
  apply Permutation_nil. symmetry. apply sort_perm.
Qed.

(** X15.  A catalog outage sticks.  If in an iteration whose passing set
    changed every catalog lookup fails, the watcher keeps one cluster
    without endpoints for each service name and calls [AddEnvTag] on none;
    and if the next fetch brings a passing set equal to that one, the
    watcher does not ask the catalog again, whatever the catalog would
    answer now: it sends nothing and keeps the clusters without
    endpoints. *)
Theorem catalog_outage_sticks service status dc st services1 idx1 cat1 ord1
    services2 idx2 cat2 ord2 :
  let pass1 := passingServices (flat_map ServiceEntry.Checks services1) status in
  let pass2 := passingServices (flat_map ServiceEntry.Checks services2) status in
  let out1 := watchService_iter sortEndpoints AddEnvTag passingServices service status
                dc st (mkCycle (HealthOk services1 idx1) cat1 ord1) in
  let out2 := watchService_iter sortEndpoints AddEnvTag passingServices service status
                dc out1.1 (mkCycle (HealthOk services2 idx2) cat2 ord2) in
  checkCheckersEqual (oldCheckers st) pass1 = false ->
  (forall name, name ∈ ord1 -> cat1 name = CatalogErr) ->
  checkCheckersEqual pass1 pass2 = true ->
  length (lastConfig out1.1) = length ord1 /\
  Forall (fun c => elems (Cluster.Endpoints c) = []) (lastConfig out1.1) /\
  List.filter is_addEnvTag out1.2 = [] /\
  out2.2 = [EvFetch service dc idx1] /\
  lastConfig out2.1 = lastConfig out1.1.
Proof.
  intros pass1 pass2 out1 out2 Hne Hcat Heq. subst out2 out1.
  rewrite (watchService_iter_resolved sortEndpoints AddEnvTag passingServices
             service status dc st services1 idx1 cat1 ord1 Hne).
  fold pass1. simpl.
  destruct (range_clusters_outage (group_checks pass1 ∅) dc ord1 cat1 Hcat) as [Hc Ht].
  unfold servicesConfig.
  destruct (checkClusterChanged_touched sortEndpoints
              (range_clusters AddEnvTag cat1 (group_checks pass1 ∅) dc ord1).1
              (lastConfig st)) as [Htouch _].
  split; [|split; [|split]].
  - rewrite <- (Forall2_length _ _ _ Htouch), Hc. by rewrite length_map.
  - eapply touched_no_endpoints; [|exact Htouch]. rewrite Hc.
    apply Forall_forall. intros c Hin. apply list_elem_of_In, in_map_iff in Hin.
    by destruct Hin as (n & <- & _).
  - rewrite List.filter_app, Ht. by destruct (changed _).
  - rewrite watchService_iter_suppressed; [done|]. simpl. by fold pass2.
Qed.

(** X16.  When the passing set becomes empty after having had members, the
    watcher asks the catalog nothing and builds no cluster: it sends the
    empty list of clusters (if its last list had clusters) and keeps no
    passing check and no cluster. *)
Theorem last_instance_gone service status dc st services idx cat ord :
  passingServices (flat_map ServiceEntry.Checks services) status = [] ->
  oldCheckers st <> [] ->
  range_order (group_checks [] ∅) ord ->
  watchService_iter sortEndpoints AddEnvTag passingServices service status dc st
    (mkCycle (HealthOk services idx) cat ord)
  = (mkWatch idx [] [],
     EvFetch service dc (lastIndex st)
       :: (if (length (lastConfig st) =? 0)%nat then [] else [EvSend []])).
Proof.
  intros Hpass Hold Hord.
  assert (ord = []) as ->.
  { unfold range_order in Hord. simpl in Hord.
    rewrite dom_empty_L, elements_empty in Hord. by apply Permutation_nil_r. }
  assert (Hne : checkCheckersEqual (oldCheckers st)
                  (passingServices (flat_map ServiceEntry.Checks services) status) = false).
  { rewrite Hpass. destruct (oldCheckers st); [done|]. done. }
  rewrite watchService_iter_resolved by done. rewrite Hpass. simpl.
  unfold checkClusterChanged. simpl.
  destruct (lastConfig st) as [|c l]; simpl; done.
Qed.

Lemma iter_keeps_clusters_iff_checks service status dc st cy :
  match health cy with
  | HealthOk services _ =>
      range_order
        (group_checks (passingServices (flat_map ServiceEntry.Checks services) status) ∅)
        (order cy)
  | HealthErr => True
  end ->
  (oldCheckers st = [] <-> lastConfig st = []) ->
  let st' := (watchService_iter sortEndpoints AddEnvTag passingServices service status
                dc st cy).1 in
  oldCheckers st' = [] <-> lastConfig st' = [].
Proof.
  intros Hord Hinv. unfold watchService_iter.
  destruct cy as [h cat ord]. simpl in *. destruct h as [|services idx]; [done|].
  set (pass := passingServices (flat_map ServiceEntry.Checks services) status) in *.
  destruct (checkCheckersEqual _ _); [done|].
  pose proof (servicesConfig_length AddEnvTag cat pass dc ord) as Hlen.
  assert (Hin : forall name, name ∈ ord <->
            exists c, c ∈ pass /\ HealthCheck.ServiceName c = name).
  { intros name. destruct (range_order_names _ _ Hord) as [_ Hin].
    by rewrite Hin, group_checks_names. }
  destruct (checkClusterChanged_touched sortEndpoints
              (servicesConfig AddEnvTag cat pass dc ord).1 (lastConfig st)) as [Htouch _].
  apply Forall2_length in Htouch.
  destruct (servicesConfig AddEnvTag cat pass dc ord) as [newConfig tr]. simpl in *.
  rewrite <- !length_zero_iff_nil, <- Htouch, Hlen. rewrite !length_zero_iff_nil.
  split.
  - intros ->. destruct ord as [|name ord]; [done|].
    destruct (proj1 (Hin name)) as (c & Hc & _); [by left|]. by inv Hc.
  - intros ->. destruct pass as [|c pass]; [done|].
    assert (HealthCheck.ServiceName c ∈ @nil string) as Hc; [|by inv Hc].
    apply Hin. exists c. split; [by left|done].
Qed.

(** X17.  Through every run in which the runtime ranges over the keys of
    the map, the watcher keeps clusters exactly when it keeps passing
    checks: the last cluster list is empty iff the last passing set is. *)
Theorem clusters_iff_checks service status dc cycles : forall st,
  range_orders passingServices status cycles ->
  (oldCheckers st = [] <-> lastConfig st = []) ->
  let st' := (watchService_run sortEndpoints AddEnvTag passingServices service status
                dc st cycles).1 in
  oldCheckers st' = [] <-> lastConfig st' = [].
Proof.
  induction cycles as [|cy cycles IH]; intros st Hord Hinv; simpl; [done|].
  apply Forall_cons in Hord as [Hcy Hord].
  pose proof (iter_keeps_clusters_iff_checks service status dc st cy Hcy Hinv) as H1.
  destruct (watchService_iter _ _ _ _ _ _ st cy) as [st1 tr1]. simpl in H1.
  specialize (IH st1 Hord H1). simpl in IH.
  by destruct (watchService_run _ _ _ _ _ _ st1 cycles) as [st2 tr2].
Qed.
End WatcherRuns.

(** ** No emission is repeated *)

(** Insertion sort leaves a sorted list as it is. *)
Lemma insertion_prefix_fixes {A} (less : A -> A -> bool) l : forall rp,
  Sorted (not_after less) (reverse rp ++ l) ->
  fold_left (fun rprefix x => move_left less x rprefix) l rp = reverse l ++ rp.
Proof.
  induction l as [|x l IH]; intros rp Hs; simpl; [done|].
  assert (Hm : move_left less x rp = x :: rp).
  { destruct rp as [|y rp]; simpl; [done|].
    rewrite reverse_cons, <- app_assoc in Hs. simpl in Hs.
    assert (Hyx : not_after less y x).
    { clear IH. induction (reverse rp) as [|z r IHr]; simpl in Hs.
      - apply Sorted_inv in Hs as [_ Hh]. by apply HdRel_inv in Hh.
      - apply Sorted_inv in Hs as [Hs _]. by apply IHr. }
    unfold not_after in Hyx. by rewrite Hyx. }
  rewrite Hm, IH.
  - by rewrite reverse_cons, <- app_assoc.
  - by rewrite reverse_cons, <- app_assoc.
Qed.

Lemma insertionSort_fixes_sorted {A} (less : A -> A -> bool) l :
  Sorted (not_after less) l -> insertionSort less l = l.
Proof.
  intros Hs. unfold insertionSort.
  rewrite (insertion_prefix_fixes less l []) by done.
  by rewrite app_nil_r, reverse_involutive.
Qed.

Lemma insertionSort_twice {A} (less : A -> A -> bool) l :
  (forall a b, less a b = true -> less b a = false) ->
  insertionSort less (insertionSort less l) = insertionSort less l.
Proof. intros Hasym. by apply insertionSort_fixes_sorted, insertionSort_sorted. Qed.

Lemma neighbours_differ_weaken {A} (same same' : A -> A -> Prop) l :
  (forall a b, same' a b -> same a b) ->
  neighbours_differ same l -> neighbours_differ same' l.
Proof.
  intros Hw. induction l as [|a l IH]; simpl; [done|].
  intros [H1 H2]. split; [|by apply IH].
  destruct l; [done|]. intros H. by apply H1, Hw.
Qed.

Section NoRepeat.
Variable sortEndpoints : list Endpoint.t -> list Endpoint.t.
Variable AddEnvTag : Cluster.t -> Cluster.t.
Variable passingServices : list HealthCheck.t -> list string -> list HealthCheck.t.
Hypothesis sort_twice : forall l, sortEndpoints (sortEndpoints l) = sortEndpoints l.

Lemma sortedEndpoints_sortCluster c :
  sortedEndpoints sortEndpoints (sortCluster sortEndpoints c)
  = sortedEndpoints sortEndpoints c.
Proof.
  unfold sortedEndpoints, sortCluster. simpl.
  destruct (Cluster.Endpoints c) as [|l]; simpl; [done|].
  by rewrite sort_twice.
Qed.

Lemma same_sorted_refl l : same_sorted sortEndpoints l l.
Proof. apply Forall2_same_length_lookup_2; [done|]. intros i c d Hc Hd. congruence. Qed.

Lemma diff_step new last p :
  same_sorted sortEndpoints last p ->
  let r := checkClusterChanged sortEndpoints new last in
  (changed r = true -> ~ same_sorted sortEndpoints p (new_after r)) /\
  (changed r = false -> same_sorted sortEndpoints (new_after r) p).
Proof.
  intros Hf r. unfold same_sorted in *. split.
  - intros Hch Heq.
    destruct (decide (length new = length last)) as [Hlen|Hlen].
    + destruct (checkClusterChanged_first_difference sortEndpoints new last Hlen Hch)
        as (i & c1 & c2 & H1 & H2 & H3 & _ & H5 & _).
      fold r in H5.
      assert (Hn : new_after r !! i = Some (sortCluster sortEndpoints c1)).
      { rewrite H5. rewrite lookup_app_l.
        - rewrite lookup_map, lookup_take_lt by lia. by rewrite H1.
        - rewrite length_map, length_take. apply lookup_lt_Some in H1. lia. }
      destruct (Forall2_lookup_l _ _ _ _ _ Hf H2) as (d & Hd & Hs).
      pose proof (Forall2_lookup_lr _ _ _ _ _ _ Heq Hd Hn) as Hs'. simpl in Hs'.
      rewrite sortedEndpoints_sortCluster in Hs'. congruence.
    + subst r. unfold checkClusterChanged in Heq.
      apply Nat.eqb_neq in Hlen. rewrite Hlen in Heq. simpl in Heq.
      apply Forall2_length in Hf, Heq. apply Nat.eqb_neq in Hlen. lia.
  - intros Hch.
    pose proof Hch as Hu. apply checkClusterChanged_unchanged in Hu as [Hlen Hu].
    subst r. unfold checkClusterChanged in *.
    apply Nat.eqb_eq in Hlen. rewrite Hlen in *. simpl in *.
    apply Nat.eqb_eq in Hlen.
    destruct (checkPairs_unchanged_sorted sortEndpoints new last Hlen Hch) as [-> _].
    apply Forall2_same_length_lookup_2.
    + rewrite length_map, Hlen. by eapply Forall2_length.
    + intros i c d Hc Hd. rewrite lookup_map in Hc.
      destruct (new !! i) as [c1|] eqn:E1; [|done]. simpl in Hc. injection Hc as <-.
      destruct (last !! i) as [c2|] eqn:E2.
      * rewrite sortedEndpoints_sortCluster, (Hu i c1 c2 E1 E2).
        by apply (Forall2_lookup_lr _ _ _ _ _ _ Hf E2 Hd).
      * apply lookup_lt_Some in E1. apply lookup_ge_None in E2. lia.
Qed.

Lemma aggregator_no_repeat service sels : forall st sent st' tr,
  follows sortEndpoints (lastResult st) sent ->
  watchServices_run sortEndpoints service st sels = Some (st', tr) ->
  neighbours_differ (same_sorted sortEndpoints) (option_list sent ++ sends tr).
Proof.
  induction sels as [|sel sels IH]; intros st sent st' tr Hf; simpl.
  - intros [= <- <-]. destruct sent; simpl; done.
  - destruct (watchServices_iter _ _ _ _) as [[st1 tr1]|] eqn:E1; [|done].
    destruct (watchServices_run _ _ _ _) as [[st2 tr2]|] eqn:E2; [|done].
    intros [= <- <-]. rewrite sends_app.
    destruct sel as [chosen|chosen value]; simpl in E1;
      destruct (_ <? _)%nat eqn:Hlt; try done; injection E1 as <- <-; simpl.
    + eapply IH; [|exact E2]. exact Hf.
    + set (r := checkClusterChanged sortEndpoints
                  (merged service (<[chosen:=value]> (lastConfigs st))) (lastResult st))
        in *.
      destruct (changed r) eqn:Hch; simpl.
      * assert (Hn : neighbours_differ (same_sorted sortEndpoints)
                       (option_list (Some (new_after r)) ++ sends tr2)).
        { eapply IH; [|exact E2]. simpl. apply same_sorted_refl. }
        simpl in Hn. destruct sent as [p|]; simpl; [|done].
        split; [|exact Hn].
        destruct (diff_step (merged service (<[chosen:=value]> (lastConfigs st)))
                    (lastResult st) p Hf) as [Hne _].
        by apply Hne.
      * destruct sent as [p|]; simpl.
        -- destruct (diff_step (merged service (<[chosen:=value]> (lastConfigs st)))
                       (lastResult st) p Hf) as [_ Hk].
           eapply (IH _ (Some p)); [|exact E2]. exact (Hk Hch).
        -- eapply (IH _ None); [|exact E2]. exact I.
Qed.

(** X24.  With a sort that changes nothing when it is run a second time,
    the aggregator never sends the same list twice in a row: of two lists
    sent one after the other in a run, whatever was received and not sent
    in between, the second differs from the first, and still differs once
    the endpoints of both are sorted. *)
Theorem aggregator_never_repeats service st sels st' tr :
  watchServices_run sortEndpoints service st sels = Some (st', tr) ->
  neighbours_differ (same_sorted sortEndpoints) (sends tr) /\
  neighbours_differ eq (sends tr).
Proof.
  intros Hrun.
  assert (H : neighbours_differ (same_sorted sortEndpoints) (sends tr))
    by apply (aggregator_no_repeat service sels st None st' tr I Hrun).
  split; [exact H|].
  eapply neighbours_differ_weaken; [|exact H].
  intros a b ->. apply same_sorted_refl.
Qed.

Lemma watcher_no_repeat service status dc cycles : forall st sent,
  follows sortEndpoints (lastConfig st) sent ->
  neighbours_differ (same_sorted sortEndpoints)
    (option_list sent ++
     sends (watchService_run sortEndpoints AddEnvTag passingServices service
              status dc st cycles).2).
Proof.
  induction cycles as [|cy cycles IH]; intros st sent Hf; simpl.
  - rewrite app_nil_r. destruct sent; simpl; done.
  - unfold watchService_iter. destruct cy as [h cat ord]. simpl.
    destruct h as [|services idx].
    + specialize (IH st sent Hf).
      destruct (watchService_run _ _ _ _ _ _ st cycles) as [st2 tr2]. by simpl in *.
    + destruct (checkCheckersEqual _ _).
      * specialize (IH (mkWatch idx (oldCheckers st) (lastConfig st)) sent Hf).
        destruct (watchService_run _ _ _ _ _ _ _ cycles) as [st2 tr2]. by simpl in *.
      * pose proof (range_clusters_sends AddEnvTag cat
          (group_checks (passingServices (flat_map ServiceEntry.Checks services) status) ∅)
          dc ord) as Hs.
        unfold servicesConfig.
        destruct (range_clusters _ _ _ _ _) as [newConfig tr1]. simpl in Hs.
        set (r := checkClusterChanged sortEndpoints newConfig (lastConfig st)).
        set (st1 := mkWatch idx _ (new_after r)).
        destruct (changed r) eqn:Hch.
        -- specialize (IH st1 (Some (new_after r)) (same_sorted_refl _)).
           destruct (watchService_run _ _ _ _ _ _ st1 cycles) as [st2 tr2].
           simpl in *. rewrite !sends_app, Hs. simpl.
           destruct sent as [p|]; simpl; [|done].
           split; [|exact IH].
           destruct (diff_step newConfig (lastConfig st) p Hf) as [Hne _].
           by apply Hne.
        -- assert (Hk : follows sortEndpoints (lastConfig st1) sent).
           { destruct sent as [p|]; [|done].
             by destruct (diff_step newConfig (lastConfig st) p Hf) as [_ Hk]; apply Hk. }
           specialize (IH st1 sent Hk).
           destruct (watchService_run _ _ _ _ _ _ st1 cycles) as [st2 tr2].
           simpl in *. by rewrite !sends_app, Hs, app_nil_r.
Qed.

(** X25.  With a sort that changes nothing when it is run a second time,
    the watcher of a datacenter never sends the same list twice in a row:
    two lists sent one after the other differ in length or, at some
    position, in the sorted endpoints of their clusters, whatever failed
    fetches, unchanged passing sets and unsent lists lie between them. *)
Theorem watcher_never_repeats service status dc st cycles :
  let tr := (watchService_run sortEndpoints AddEnvTag passingServices service
               status dc st cycles).2 in
  neighbours_differ (same_sorted sortEndpoints) (sends tr) /\
  neighbours_differ eq (sends tr).
Proof.
  intros tr.
  assert (H : neighbours_differ (same_sorted sortEndpoints) (sends tr))
    by apply (watcher_no_repeat service status dc cycles st None I).
  split; [exact H|].
  eapply neighbours_differ_weaken; [|exact H].
  intros a b ->. apply same_sorted_refl.
Qed.
End NoRepeat.

(** ** The request builder *)

Module ClientFacts.
Import Client.

Section HeaderFacts.
Variable V : Type.
Variable Sprint : V -> string.
Variable CanonicalHeaderKey : string -> string.

Lemma Add_nil c k v : header c = None -> Add CanonicalHeaderKey c k v = None.
Proof. unfold Add. by intros ->. Qed.

Lemma Add_some c k v m :
  header c = Some m ->
  exists c',
    Add CanonicalHeaderKey c k v = Some c' /\
    header c' <> None /\
    values (header c') (CanonicalHeaderKey k)
      = values (header c) (CanonicalHeaderKey k) ++ [v] /\
    (forall key, key <> CanonicalHeaderKey k ->
       values (header c') key = values (header c) key) /\
    (url c', body c', method c', timeout c', err c', respBody c', tlsClientConfig c')
    = (url c, body c, method c, timeout c, err c, respBody c, tlsClientConfig c).
Proof.
  intros Hm. unfold Add. rewrite Hm. eexists. split; [done|]. simpl.
  split; [done|]. split; [by rewrite lookup_insert_eq|]. split; [|done].
  intros key Hne. by rewrite lookup_insert_ne.
Qed.

Lemma add_all_header c pairs :
  add_all CanonicalHeaderKey c pairs = None <-> header c = None /\ pairs <> [].
Proof.
  revert c. induction pairs as [|[k v] pairs IH]; intros c; simpl.
  - split; [done|]. by intros [_ ?].
  - destruct (header c) as [m|] eqn:Hm.
    + destruct (Add_some c k v m Hm) as (c' & -> & Hc' & _).
      rewrite IH. split; [by intros [? _]|by intros [? _]].
    + rewrite Add_nil by done. done.
Qed.

Lemma WithHeaderMap_add_all c entries :
  WithHeaderMap V Sprint CanonicalHeaderKey c entries
  = add_all CanonicalHeaderKey c (map (fun kv => (kv.1, Sprint kv.2)) entries).
Proof.
  revert c. induction entries as [|[k v] entries IH]; intros c; simpl; [done|].
  destruct (Add _ c k (Sprint v)); [apply IH|done].
Qed.

Lemma WithHeaders_loop_spec rest : forall done c rounds l,
  length rest <= rounds ->
  l = (Z.of_nat (length done + length rest) - 1)%Z ->
  WithHeaders_loop V Sprint CanonicalHeaderKey c (done ++ rest) l (length done) rounds
  = add_all CanonicalHeaderKey c (full_pairs V Sprint rest).
Proof.
  induction rest as [rest IH] using (induction_ltof1 _ (@length V)).
  unfold ltof in IH. intros done c rounds l Hr Hl.
  destruct rest as [|k [|v rest]]; simpl in *.
  - destruct rounds; simpl; [done|].
    destruct (Z.ltb_spec (Z.of_nat (length done)) l); [lia|done].
  - destruct rounds; simpl; [done|].
    destruct (Z.ltb_spec (Z.of_nat (length done)) l); [lia|done].
  - destruct rounds; simpl; [lia|].
    destruct (Z.ltb_spec (Z.of_nat (length done)) l); [|lia].
    rewrite list_lookup_middle by done.
    replace (done ++ k :: v :: rest) with ((done ++ [k]) ++ v :: rest)
      by (by rewrite <- app_assoc).
    rewrite list_lookup_middle by (rewrite length_app; simpl; lia).
    destruct (Add _ c (Sprint k) (Sprint v)) as [c'|]; [|done].
    replace ((done ++ [k]) ++ v :: rest) with ((done ++ [k; v]) ++ rest)
      by (by rewrite <- !app_assoc).
    replace (length done + 2) with (length (done ++ [k; v]))
      by (rewrite length_app; simpl; lia).
    apply IH; [simpl; lia|lia|]. rewrite length_app. simpl. lia.
Qed.

Lemma header_pairs_full kvs :
  header_pairs V Sprint kvs =
  full_pairs V Sprint kvs ++
  (if Nat.odd (length kvs)
   then match last kvs with Some k => [(Sprint k, "")] | None => [] end
   else []).
Proof.
  induction kvs as [kvs IH] using (induction_ltof1 _ (@length V)).
  unfold ltof in IH. destruct kvs as [|k [|v rest]]; simpl; [done..|].
  rewrite (IH rest) by (simpl; lia). f_equal. f_equal.
  rewrite Nat.odd_succ, Nat.even_succ.
  destruct rest; simpl; [done|]. done.
Qed.

Lemma add_all_app c p1 p2 :
  add_all CanonicalHeaderKey c (p1 ++ p2) =
  match add_all CanonicalHeaderKey c p1 with
  | None => None
  | Some c' => add_all CanonicalHeaderKey c' p2
  end.
Proof.
  revert c. induction p1 as [|[k v] p1 IH]; intros c; simpl; [done|].
  destruct (Add _ c k v); [apply IH|done].
Qed.

Lemma WithHeaders_add_all c keyAndValues :
  WithHeaders V Sprint CanonicalHeaderKey c keyAndValues
  = add_all CanonicalHeaderKey c (header_pairs V Sprint keyAndValues).
Proof.
  unfold WithHeaders.
  pose proof (WithHeaders_loop_spec keyAndValues [] c (length keyAndValues)
                (Z.of_nat (length keyAndValues) - 1)%Z ltac:(lia) ltac:(simpl; lia))
    as Hloop.
  simpl in Hloop. rewrite Hloop, header_pairs_full, add_all_app.
  destruct (add_all _ c (full_pairs V Sprint keyAndValues)) as [c'|]; [|done].
  replace (Z.of_nat (length keyAndValues) - 1 + 1)%Z
    with (Z.of_nat (length keyAndValues)) by lia.
  assert (Hodd : ((Z.of_nat (length keyAndValues)) mod 2 =? 1)%Z
                 = Nat.odd (length keyAndValues)).
  { destruct (Nat.odd (length keyAndValues)) eqn:E.
    - apply Nat.odd_spec in E as [m Hm]. apply Z.eqb_eq. rewrite Hm.
      symmetry. apply (Z.mod_unique _ _ (Z.of_nat m)); lia.
    - assert (He : Nat.even (length keyAndValues) = true)
        by (by rewrite <- Nat.negb_odd, E).
      apply Nat.even_spec in He as [m Hm]. apply Z.eqb_neq. rewrite Hm.
      rewrite <- (Z.mod_unique _ _ (Z.of_nat m) 0); lia. }
  rewrite Hodd. destruct (Nat.odd (length keyAndValues)) eqn:E; [|done].
  assert (Hlast : keyAndValues !! Z.to_nat (Z.of_nat (length keyAndValues) - 1)
                  = last keyAndValues).
  { rewrite last_lookup. f_equal. lia. }
  rewrite Hlast. destruct (last keyAndValues) as [k|] eqn:El; simpl.
  - by destruct (Add _ c' (Sprint k) "").
  - destruct keyAndValues; [done|]. by rewrite last_cons in El; destruct (last _).
Qed.

Lemma header_pairs_nil kvs : header_pairs V Sprint kvs = [] <-> kvs = [].
Proof. destruct kvs as [|k [|v rest]]; simpl; split; done. Qed.

(** X18.  [WithHeader] never fails: it makes the header map if there is
    none and appends the printed value to the values of the canonical key,
    leaving the other keys alone.  [WithHeaderMap] and [WithHeaders] do
    not make the map: on a request without header map they panic exactly
    when they have something to add. *)
Theorem header_map_is_made_by_WithHeader_only c :
  (forall k v, exists c',
     WithHeader V Sprint CanonicalHeaderKey c k v = Some c' /\
     header c' <> None /\
     values (header c') (CanonicalHeaderKey k)
       = values (header c) (CanonicalHeaderKey k) ++ [Sprint v] /\
     (forall key, key <> CanonicalHeaderKey k ->
        values (header c') key = values (header c) key)) /\
  (forall entries,
     WithHeaderMap V Sprint CanonicalHeaderKey c entries = None
     <-> header c = None /\ entries <> []) /\
  (forall keyAndValues,
     WithHeaders V Sprint CanonicalHeaderKey c keyAndValues = None
     <-> header c = None /\ keyAndValues <> []).
Proof.
  split; [|split].
  - intros k v. unfold WithHeader. destruct (header c) as [m|] eqn:Hm.
    + destruct (Add_some c k (Sprint v) m Hm) as (c' & H1 & H2 & H3 & H4 & _).
      exists c'. by rewrite Hm in H3, H4.
    + destruct (Add_some (set_header c (Some ∅)) k (Sprint v) ∅ eq_refl)
        as (c' & H1 & H2 & H3 & H4 & _).
      exists c'. split; [done|]. split; [done|]. simpl in *.
      rewrite lookup_empty in H3. split; [done|].
      intros key Hne. rewrite (H4 key Hne). by rewrite lookup_empty.
  - intros entries. rewrite WithHeaderMap_add_all, add_all_header.
    destruct entries; simpl; split; intros [? ?]; split; done.
  - intros kvs. rewrite WithHeaders_add_all, add_all_header, header_pairs_nil.
    done.
Qed.

(** X19.  [WithHeaders] adds its arguments pair by pair, in order, as key
    and value, both printed; with an odd number of arguments the last one
    is added as a key with the empty string as value.  The number of
    additions is half the number of arguments, rounded up. *)
Theorem WithHeaders_adds_pairs c keyAndValues :
  WithHeaders V Sprint CanonicalHeaderKey c keyAndValues
    = add_all CanonicalHeaderKey c (header_pairs V Sprint keyAndValues) /\
  length (header_pairs V Sprint keyAndValues) = Nat.div2 (S (length keyAndValues)) /\
  (Nat.odd (length keyAndValues) = true ->
   exists k, last keyAndValues = Some k /\
             last (header_pairs V Sprint keyAndValues) = Some (Sprint k, "")).
Proof.
  split; [apply WithHeaders_add_all|]. split.
  - induction keyAndValues as [kvs IH] using (induction_ltof1 _ (@length V)).
    unfold ltof in IH. destruct kvs as [|k [|v rest]]; simpl; [done..|].
    rewrite (IH rest) by (simpl; lia). done.
  - induction keyAndValues as [kvs IH] using (induction_ltof1 _ (@length V)).
    unfold ltof in IH. destruct kvs as [|k [|v rest]]; simpl; [done|by eexists|].
    rewrite Nat.odd_succ, Nat.even_succ. intros Hodd.
    destruct (IH rest ltac:(simpl; lia) Hodd) as (k' & H1 & H2).
    exists k'. destruct rest as [|a rest']; [done|].
    split; [done|].
    destruct (header_pairs V Sprint (a :: rest')) as [|p ps]; [done|]. exact H2.
Qed.
End HeaderFacts.

(** *** Chains of calls *)

Lemma chain_cons c k ks :
  chain c (k :: ks)
  = ((chain (call_on c k).1 ks).1, (call_on c k).2 ++ (chain (call_on c k).1 ks).2).
Proof. simpl. destruct (call_on c k) as [c1 tr1]. simpl. by destruct (chain c1 ks). Qed.

Lemma err_call_on c k :
  err (call_on c k).1 = None <-> err c = None /\ fails k = false.
Proof.
  destruct k as [u|u|timeout|arg|conf|net]; simpl; try tauto.
  - destruct arg as [[buf|e]|v|v|[buf|e]]; simpl; split; try tauto;
      try (by intros [? ?]); done.
  - unfold Response. destruct (String.eqb _ _), net; simpl; split; try tauto;
      try (by intros [? ?]); done.
Qed.

Lemma respBody_call_on c k :
  respBody (call_on c k).1 = None <-> respBody c = None /\ gets_response k = false.
Proof.
  destruct k as [u|u|timeout|arg|conf|net]; simpl; try tauto.
  - destruct arg as [[buf|e]|v|v|[buf|e]]; simpl; tauto.
  - unfold Response. destruct (String.eqb _ _), net; simpl; split; try tauto;
      try (by intros [? ?]); done.
Qed.

Lemma err_chain ks : forall c,
  err (chain c ks).1 = None <-> err c = None /\ Forall (fun k => fails k = false) ks.
Proof.
  induction ks as [|k ks IH]; intros c.
  - simpl. split; [by intros ?; split|by intros [? _]].
  - rewrite chain_cons. simpl. rewrite IH, err_call_on, Forall_cons. tauto.
Qed.

Lemma respBody_chain ks : forall c,
  respBody (chain c ks).1 = None <->
  respBody c = None /\ Forall (fun k => gets_response k = false) ks.
Proof.
  induction ks as [|k ks IH]; intros c.
  - simpl. split; [by intros ?; split|by intros [? _]].
  - rewrite chain_cons. simpl. rewrite IH, respBody_call_on, Forall_cons. tauto.
Qed.

Lemma parsers_panic c data_nil read unmarshal :
  (ParseDataJson c data_nil read unmarshal = None <-> err c = None /\ respBody c = None) /\
  (ParseString c read = None <-> err c = None /\ respBody c = None).
Proof.
  unfold ParseDataJson, ParseString.
  destruct (err c) as [e|]; [split; split; [done|by intros [? _]|done|by intros [? _]]|].
  destruct (respBody c) as [resp|]; [|by split; split].
  split; (split; [|by intros [_ ?]]).
  - by destruct (negb _), data_nil, read.
  - by destruct (negb _), read.
Qed.

(** X20.  An error once recorded is never cleared.  After a chain of calls
    of [Get], [Post], [WithTimeout], [WithBody], [TLSClientConfig] and
    [Response] the client holds an error exactly when it held one before
    or some call failed (the reader or the encoder of [WithBody],
    [http.NewRequest], [client.Do]).  An error stops no request: every
    [Response] whose request can be built sends it, once.  And once an
    error is held every parser returns an error without reading or closing
    anything, whatever responses have arrived since. *)
Theorem recorded_error_is_never_cleared ks c :
  (err (chain c ks).1 = None <->
   err c = None /\ Forall (fun k => fails k = false) ks) /\
  length (List.filter is_do (chain c ks).2) = length (List.filter does_request ks) /\
  (err c <> None \/ Exists (fun k => fails k = true) ks ->
   exists e,
     err (chain c ks).1 = Some e /\
     forall data_nil read unmarshal,
       ParseDataJson (chain c ks).1 data_nil read unmarshal = Some (Some e, []) /\
       ParseJson (chain c ks).1 data_nil read unmarshal = Some (Some e, []) /\
       ParseEmpty (chain c ks).1 read unmarshal = Some (Some e, []) /\
       ParseString (chain c ks).1 read = Some (Some e, None, [])).
Proof.
  split; [apply err_chain|]. split.
  - revert c. induction ks as [|k ks IH]; intros c; [done|].
    rewrite chain_cons. simpl. rewrite List.filter_app, length_app, IH.
    assert (Hk : length (List.filter is_do (call_on c k).2)
                 = if does_request k then 1 else 0).
    { destruct k as [u|u|timeout|arg|conf|net]; simpl; try done.
      unfold Response. by destruct net. }
    rewrite Hk. by destruct (does_request k).
  - intros Hfail.
    destruct (err (chain c ks).1) as [e|] eqn:E.
    + exists e. split; [done|]. intros data_nil read unmarshal.
      unfold ParseJson, ParseEmpty, ParseDataJson, ParseString. by rewrite E.
    + apply err_chain in E as [E HF]. destruct Hfail as [Hc|Hex]; [done|].
      apply Exists_exists in Hex as (k & Hin & Hk).
      rewrite Forall_forall in HF. specialize (HF k Hin). congruence.
Qed.

(** X21.  The parsers dereference the nil response exactly when nothing has
    happened: after a chain of calls [ParseDataJson] (and so [ParseJson]
    and [ParseEmpty]) and [ParseString] panic iff the client held neither
    an error nor a response before the chain, no call of the chain failed
    and none received a response.  So they never panic when the chain ends
    with [Response]. *)
Theorem parsers_panic_iff_nothing_happened ks c data_nil read unmarshal :
  let quiet := err c = None /\ respBody c = None /\
               Forall (fun k => fails k = false /\ gets_response k = false) ks in
  (ParseDataJson (chain c ks).1 data_nil read unmarshal = None <-> quiet) /\
  (ParseString (chain c ks).1 read = None <-> quiet) /\
  (forall net,
     ParseDataJson (chain c (ks ++ [CallResponse net])).1 data_nil read unmarshal <> None /\
     ParseString (chain c (ks ++ [CallResponse net])).1 read <> None).
Proof.
  intros quiet.
  assert (Hq : forall ks', err (chain c ks').1 = None /\ respBody (chain c ks').1 = None <->
                 err c = None /\ respBody c = None /\
                 Forall (fun k => fails k = false /\ gets_response k = false) ks').
  { intros ks'. rewrite err_chain, respBody_chain, Forall_and. tauto. }
  destruct (parsers_panic (chain c ks).1 data_nil read unmarshal) as [H1 H2].
  split; [by rewrite H1, Hq|]. split; [by rewrite H2, Hq|].
  intros net.
  destruct (parsers_panic (chain c (ks ++ [CallResponse net])).1 data_nil read unmarshal)
    as [H3 H4].
  rewrite H3, H4, Hq, Forall_app, Forall_singleton.
  split; intros (_ & _ & _ & Hf & Hg); by destruct net.
Qed.

(** X22.  A new request has a timeout of five seconds.  The timeout given
    to [WithTimeout] is taken as seconds exactly for values from
    -9223372036 to 9223372036; beyond, the multiplication by a second wraps
    around in 64 bits. *)
Theorem timeout_is_seconds_until_it_wraps c t :
  timeout_duration NewReq = 5000000000%Z /\
  ((- 2 ^ 63 <= t < 2 ^ 63)%Z ->
   (timeout_duration (WithTimeout c t) = (t * 1000000000)%Z
    <-> (-9223372036 <= t <= 9223372036)%Z)) /\
  (- 2 ^ 63 <= timeout_duration (WithTimeout c t) < 2 ^ 63)%Z.
Proof.
  unfold timeout_duration, wrap64. simpl.
  split; [done|]. split.
  - intros Ht. split.
    + intros H.
      pose proof (Z.mod_pos_bound (t * 1000000000 + 2 ^ 63) (2 ^ 64) ltac:(lia)). lia.
    + intros H. rewrite Z.mod_small; lia.
  - pose proof (Z.mod_pos_bound (t * 1000000000 + 2 ^ 63) (2 ^ 64) ltac:(lia)). lia.
Qed.

(** X23.  An error of [WithBody] (the reader fails, or the value cannot be
    encoded) leaves the body as it was and does not stop [Response] from
    sending the request; after a successful response the parsers still
    return that error, and the body of the response is never closed. *)
Theorem body_error_outlives_the_response c arg e resp rest data_nil read unmarshal :
  arg = ArgReader (Err e) \/ arg = ArgOther (Err e) ->
  let c1 := WithBody c arg in
  let out := Response c1 (DoOk resp rest) in
  body c1 = body c /\
  length (List.filter is_do out.2) = 1 /\
  respBody out.1 = Some resp /\
  ParseDataJson out.1 data_nil read unmarshal = Some (Some e, []) /\
  ParseString out.1 read = Some (Some e, None, []).
Proof.
  intros Harg c1 out.
  assert (Hc1 : c1 = set_err c e) by (subst c1; by destruct Harg as [-> | ->]).
  subst out. rewrite Hc1. unfold Response, ParseDataJson, ParseString.
  by destruct (String.eqb _ _).
Qed.

(** X23 on an example: the reader given to [WithBody] fails. *)
Lemma body_error_outlives_the_response_witness :
  (ArgReader (Err "read failed") = ArgReader (Err "read failed")
   \/ ArgReader (Err "read failed") = ArgOther (Err "read failed")) /\
  ParseDataJson
    (Response (WithBody (Post NewReq "http://orders/") (ArgReader (Err "read failed")))
       (DoOk (mkResp 200 "200 OK") "")).1
    false (Ok "{}") (fun _ => None)
  = Some (Some "read failed", []).
Proof.
  assert (H : ArgReader (Err "read failed") = ArgReader (Err "read failed")
              \/ ArgReader (Err "read failed") = ArgOther (Err "read failed"))
    by (left; reflexivity).
  split; [exact H|].
  destruct (body_error_outlives_the_response (Post NewReq "http://orders/")
              (ArgReader (Err "read failed")) "read failed" (mkResp 200 "200 OK") ""
              false (Ok "{}") (fun _ => None) H) as (_ & _ & _ & H4 & _).
  exact H4.
Defined.

(** X20 on an example: a request times out, the client is used again and
    the second request is answered; the parser returns the first error. *)
Lemma recorded_error_is_never_cleared_witness :
  let ks := [CallPost "http://orders/"; CallResponse (DoErr "timeout" "");
             CallResponse (DoOk (mkResp 200 "200 OK") "")] in
  (err NewReq <> None \/ Exists (fun k => fails k = true) ks) /\
  respBody (chain NewReq ks).1 = Some (mkResp 200 "200 OK") /\
  exists e, ParseString (chain NewReq ks).1 (Ok "body") = Some (Some e, None, []).
Proof.
  intros ks.
  assert (H : err NewReq <> None \/ Exists (fun k => fails k = true) ks).
  { right. apply Exists_cons_tl, Exists_cons_hd. reflexivity. }
  split; [exact H|]. split; [reflexivity|].
  destruct (recorded_error_is_never_cleared ks NewReq) as (_ & _ & H3).
  destruct (H3 H) as (e & _ & Hp).
  exists e. exact (proj2 (proj2 (proj2 (Hp false (Ok "body") (fun _ => None))))).
Defined.
End ClientFacts.

(** * More properties on examples *)

Lemma aggregator_never_panics_witness :
  agg_wf 3 ex_agg /\
  Forall (fun sel => chosen_of sel < 3) ex_selects /\
  exists st' tr,
    watchServices_run ex_sort "web" ex_agg ex_selects = Some (st', tr) /\ agg_wf 3 st'.
Proof.
  assert (H1 : agg_wf 3 ex_agg) by (repeat split; simpl; lia).
  assert (H2 : Forall (fun sel => chosen_of sel < 3) ex_selects)
    by (repeat constructor; simpl; lia).
  split; [exact H1|]. split; [exact H2|].
  destruct (aggregator_never_panics ex_sort "web" 3 ex_selects ex_agg H1 H2)
    as (st' & tr & Hrun & Hwf & _).
  exists st', tr. split; [exact Hrun|exact Hwf].
Defined.

Lemma first_value_always_sent_witness :
  lastResult (agg_init 2) = [] /\ 0 < length (lastConfigs (agg_init 2)) /\
  watchServices_iter ex_sort "web" (agg_init 2) (SelectRecv 0 [ex_cluster []])
  = Some (mkAgg [true; true] [[ex_cluster []]; []] [Cluster.mk "web" Nil],
          [EvSend [Cluster.mk "web" Nil]]).
Proof.
  assert (H : 0 < length (lastConfigs (agg_init 2))) by (simpl; lia).
  split; [reflexivity|]. split; [exact H|].
  exact (first_value_always_sent ex_sort "web" (agg_init 2) 0 [ex_cluster []] eq_refl H).
Defined.

Lemma sent_cluster_is_the_merge_witness :
  (forall l, ex_sort l ≡ₚ l) /\
  exists st' tr c,
    watchServices_iter ex_sort "web" ex_agg (SelectRecv 2 [ex_cluster [ex_c]])
      = Some (st', tr) /\
    lastResult st' = [c] /\
    elems (Cluster.Endpoints c) ≡ₚ [ex_a; ex_b; ex_c].
Proof.
  split; [exact ex_sort_perm|].
  destruct (watchServices_iter ex_sort "web" ex_agg (SelectRecv 2 [ex_cluster [ex_c]]))
    as [[st' tr]|] eqn:E; [|vm_compute in E; discriminate].
  destruct (sent_cluster_is_the_merge ex_sort ex_sort_perm "web" ex_agg 2
              [ex_cluster [ex_c]] st' tr E) as [(c & H1 & _ & H3) _].
  exists st', tr, c. split; [reflexivity|]. split; [exact H1|].
  rewrite H3. vm_compute in E. injection E as <- _. reflexivity.
Defined.

Lemma only_first_cluster_counts_witness :
  slot_endpoints ex_two_clusters = slot_endpoints [ex_cluster [ex_c]] /\
  2 < length (lastConfigs ex_agg) /\
  exists st1 st2 tr,
    watchServices_iter ex_sort "web" ex_agg (SelectRecv 2 ex_two_clusters) = Some (st1, tr) /\
    watchServices_iter ex_sort "web" ex_agg (SelectRecv 2 [ex_cluster [ex_c]])
      = Some (st2, tr) /\
    lastResult st1 = lastResult st2.
Proof.
  assert (H : 2 < length (lastConfigs ex_agg)) by (simpl; lia).
  split; [reflexivity|]. split; [exact H|].
  exact (only_first_cluster_counts ex_sort "web" ex_agg 2 ex_two_clusters
           [ex_cluster [ex_c]] eq_refl H).
Defined.

Lemma slot_holds_last_value_witness :
  exists st' tr,
    watchServices_run ex_sort "web" ex_agg ex_selects = Some (st', tr) /\
    lastConfigs st' !! 0 = Some [ex_cluster [ex_b]] /\
    lastConfigs st' !! 1 = Some [ex_cluster []].
Proof.
  destruct (watchServices_run ex_sort "web" ex_agg ex_selects) as [[st' tr]|] eqn:E;
    [|vm_compute in E; discriminate].
  exists st', tr. split; [reflexivity|].
  split; rewrite (slot_holds_last_value ex_sort "web" ex_selects ex_agg st' tr _ E);
    reflexivity.
Defined.

Lemma diff_reads_endpoints_only_witness :
  map Cluster.Endpoints [ex_cluster [ex_a]] = map Cluster.Endpoints [Cluster.mk "api" (Slice [ex_a])] /\
  changed (checkClusterChanged ex_sort [ex_cluster [ex_a]] [ex_cluster [ex_a]])
  = changed (checkClusterChanged ex_sort [Cluster.mk "api" (Slice [ex_a])] [ex_cluster [ex_a]]).
Proof.
  split; [reflexivity|].
  exact (proj1 (diff_reads_endpoints_only ex_sort [ex_cluster [ex_a]]
                  [Cluster.mk "api" (Slice [ex_a])] [ex_cluster [ex_a]]
                  [ex_cluster [ex_a]] eq_refl eq_refl)).
Defined.

Lemma change_sorts_a_prefix_witness :
  let new := [ex_cluster [ex_b; ex_a]; ex_cluster [ex_c; ex_a]] in
  let last := [ex_cluster [ex_c]; ex_cluster [ex_a; ex_c]] in
  length new = length last /\
  changed (checkClusterChanged ex_sort new last) = true /\
  exists i,
    new_after (checkClusterChanged ex_sort new last)
    = map (sortCluster ex_sort) (take (S i) new) ++ drop (S i) new.
Proof.
  intros new last.
  assert (H : changed (checkClusterChanged ex_sort new last) = true)
    by (vm_compute; reflexivity).
  split; [reflexivity|]. split; [exact H|].
  destruct (change_sorts_a_prefix ex_sort new last eq_refl H)
    as (i & _ & _ & _ & _ & _ & _ & H5 & _).
  exists i. exact H5.
Defined.

Lemma one_lookup_per_service_witness :
  range_order (group_checks ex_mixed_checks ∅) [""; "web"] /\
  List.filter is_catalog
    (servicesConfig ex_env (fun _ => CatalogErr) ex_mixed_checks "us" [""; "web"]).2
  = [EvCatalog "web" "us"].
Proof.
  assert (H : range_order (group_checks ex_mixed_checks ∅) [""; "web"]).
  { unfold range_order. vm_compute. apply perm_swap. }
  split; [exact H|].
  exact (proj1 (one_lookup_per_service ex_env (fun _ => CatalogErr) ex_mixed_checks
                  "us" [""; "web"] H)).
Defined.

Lemma endpoints_keyed_by_service_ID_witness :
  "web" <> "" /\
  (exists c, c ∈ ex_mixed_checks /\ HealthCheck.ServiceName c = "web") /\
  exists built,
    (serviceConfig ex_env (catalog ex_cycle) "web"
       (group_checks ex_mixed_checks ∅ !!! "web") "us").1
    = ex_env (Cluster.mk "web" (Slice built)).
Proof.
  assert (H1 : "web" <> "") by discriminate.
  assert (H2 : exists c, c ∈ ex_mixed_checks /\ HealthCheck.ServiceName c = "web").
  { exists (ex_check "web" "a" "passing"). split; [by left|reflexivity]. }
  split; [exact H1|]. split; [exact H2|].
  destruct (endpoints_keyed_by_service_ID ex_env (catalog ex_cycle) ex_mixed_checks
              "web" "us" _ H1 H2 eq_refl) as (built & Hb & _).
  exists built. exact Hb.
Defined.

Lemma catalog_outage_sticks_witness :
  (forall l, ex_sort l ≡ₚ l) /\
  let out1 := watchService_iter ex_sort ex_env passingServices_spec "web" ["passing"]
                "us" watch_init
                (mkCycle (HealthOk ex_services 7) (fun _ => CatalogErr) ["web"]) in
  Forall (fun c => elems (Cluster.Endpoints c) = []) (lastConfig out1.1) /\
  (watchService_iter ex_sort ex_env passingServices_spec "web" ["passing"] "us" out1.1
     (mkCycle (HealthOk ex_services_again 9) (catalog ex_cycle) ["web"])).2
  = [EvFetch "web" "us" 7].
Proof.
  split; [exact ex_sort_perm|]. intros out1.
  destruct (catalog_outage_sticks ex_sort ex_env passingServices_spec ex_sort_perm
              "web" ["passing"] "us" watch_init ex_services 7 (fun _ => CatalogErr)
              ["web"]
              ex_services_again 9 (catalog ex_cycle) ["web"]
              eq_refl (fun _ _ => eq_refl) eq_refl) as (_ & H2 & _ & H4 & _).
  split; [exact H2|exact H4].
Defined.

Lemma last_instance_gone_witness :
  passingServices_spec (flat_map ServiceEntry.Checks []) ["passing"] = [] /\
  oldCheckers ex_state_after <> [] /\
  range_order (group_checks [] ∅) [] /\
  watchService_iter ex_sort ex_env passingServices_spec "web" ["passing"] "us"
    ex_state_after (mkCycle (HealthOk [] 8) (fun _ => CatalogErr) [])
  = (mkWatch 8 [] [], [EvFetch "web" "us" 7; EvSend []]).
Proof.
  assert (H2 : oldCheckers ex_state_after <> []) by (vm_compute; discriminate).
  assert (H3 : range_order (group_checks [] ∅) []).
  { unfold range_order. vm_compute. reflexivity. }
  split; [reflexivity|]. split; [exact H2|]. split; [exact H3|].
  exact (last_instance_gone ex_sort ex_env passingServices_spec "web" ["passing"] "us"
           ex_state_after [] 8 (fun _ => CatalogErr) [] eq_refl H2 H3).
Defined.

Lemma clusters_iff_checks_witness :
  range_orders passingServices_spec ["passing"] [ex_cycle] /\
  (oldCheckers watch_init = [] <-> lastConfig watch_init = []) /\
  (oldCheckers (watchService_run ex_sort ex_env passingServices_spec "web" ["passing"]
                  "us" watch_init [ex_cycle]).1 = []
   <-> lastConfig (watchService_run ex_sort ex_env passingServices_spec "web"
                     ["passing"] "us" watch_init [ex_cycle]).1 = []).
Proof.
  assert (H1 : range_orders passingServices_spec ["passing"] [ex_cycle]).
  { constructor; [|constructor]. unfold range_order. vm_compute. reflexivity. }
  assert (H2 : oldCheckers watch_init = [] <-> lastConfig watch_init = [])
    by (split; reflexivity).
  split; [exact H1|]. split; [exact H2|].
  exact (clusters_iff_checks ex_sort ex_env passingServices_spec "web" ["passing"]
           "us" [ex_cycle] watch_init H1 H2).
Defined.

Lemma ex_sort_twice l : ex_sort (ex_sort l) = ex_sort l.
Proof. apply insertionSort_twice. intros a b. unfold endpoint_less. apply ltb_asym. Qed.

Lemma aggregator_never_repeats_witness :
  (forall l, ex_sort (ex_sort l) = ex_sort l) /\
  exists st' tr,
    watchServices_run ex_sort "web" (agg_init 2) ex_selects_reorder = Some (st', tr) /\
    sends tr = [[ex_cluster [ex_b; ex_a]]; [ex_cluster [ex_a; ex_b; ex_c]]] /\
    neighbours_differ (same_sorted ex_sort) (sends tr) /\
    neighbours_differ eq (sends tr).
Proof.
  split; [exact ex_sort_twice|].
  destruct (watchServices_run ex_sort "web" (agg_init 2) ex_selects_reorder)
    as [[st' tr]|] eqn:E; [|vm_compute in E; discriminate].
  exists st', tr. split; [reflexivity|].
  split; [vm_compute in E; injection E as _ <-; reflexivity|].
  exact (aggregator_never_repeats ex_sort ex_sort_twice "web" (agg_init 2)
           ex_selects_reorder st' tr E).
Defined.

Lemma watcher_never_repeats_witness :
  (forall l, ex_sort (ex_sort l) = ex_sort l) /\
  length (ex_orders_sent "us" ex_orders_cycles) = 2 /\
  neighbours_differ (same_sorted ex_sort) (ex_orders_sent "us" ex_orders_cycles) /\
  neighbours_differ eq (ex_orders_sent "us" ex_orders_cycles).
Proof.
  split; [exact ex_sort_twice|]. split; [reflexivity|].
  exact (watcher_never_repeats ex_sort ex_env passingServices_spec ex_sort_twice
           "orders" ["passing"] "us" watch_init ex_orders_cycles).
Defined.
